(** * Weak references and a self-destructing object

    A shallow embedding of [Source/SelfDestructingObject.h],
    [Source/MainComponent.cpp] and the [WeakReferenceExample] of
    [Source/MainComponent.h].

    The program is written against the JUCE library: [juce::WeakReference],
    the [JUCE_DECLARE_WEAK_REFERENCEABLE] macro, [juce::Timer::callAfterDelay],
    [juce::Random], [juce::Component] and the [DBG] macro.  These are not
    part of the repository.  Each of them is modelled below, in a block of
    its own that says what it is modelled from: the specification where it
    describes the part (the weak references, the scheduler, the diagnostic),
    the library's own source where the specification is silent about the
    function the program calls ([Random::nextInt]).  The program's own
    functions are then written on top of them in a state-and-fault monad,
    statement by statement as in the C++ source. *)

From Stdlib Require Import ZArith Lia String List.
From stdpp Require Import gmap strings list.

Local Open Scope Z_scope.
Local Open Scope string_scope.

(** ** Data *)

(** An address of the free store.  A C++ pointer is [option loc]: [None] is
    [nullptr]. *)
Definition loc := positive.
Bind Scope positive_scope with loc.
Abbreviation ptr := (option loc).
Abbreviation nullptr := (@None loc).

(** The identity of a [WeakReference<T>::SharedPointer], the reference-counted
    object a [Master] and all the weak references of one instance share. *)
Definition cell := positive.
Bind Scope positive_scope with cell.

(** [WeakReference<T>]: its only member is [SharedRef holder], a counted
    pointer to the shared cell, null for a default-constructed reference. *)
Record WeakReference := mkWeak { holder : option cell }.

(** An object of the free store: [SelfDestructingObject] (a [Component], of
    which only the name is modelled) or [WeakReferenceableObject] (which has
    no name: the field stays empty).  [masterReference] is the member the
    macro [JUCE_DECLARE_WEAK_REFERENCEABLE] declares; it holds the
    [sharedPointer] of [WeakReference<T>::Master], null until the first weak
    reference is taken. *)
Record object := mkObject {
  componentName : string;
  masterReference : option cell
}.

(** The closure given to [Timer::callAfterDelay] in
    [SelfDestructingObject.h], lines 10 to 15: it captures
    [weak = WeakReference (this)]. *)
Inductive callback :=
| SelfDestruct (weak : WeakReference).

(** What a run leaves behind, in order: the strings written by [DBG], and the
    two steps of an object's destruction ([clearPointer] on its cell, then
    the release of its storage). *)
Inductive effect :=
| Dbg (msg : string)
| Cleared (c : cell)
| Freed (a : loc).

#[global] Instance WeakReference_eq_dec : EqDecision WeakReference.
Proof. solve_decision. Defined.
#[global] Instance object_eq_dec : EqDecision object.
Proof. solve_decision. Defined.
#[global] Instance callback_eq_dec : EqDecision callback.
Proof. solve_decision. Defined.
#[global] Instance effect_eq_dec : EqDecision effect.
Proof. solve_decision. Defined.

(** The state of the process.
    - [heap]: the live objects of the free store;
    - [cells]: the [owner] field of every shared cell ([Some nullptr] once
      cleared).  A cell is kept alive by its reference count for as long as
      a weak reference or a master points to it; the model never frees one;
    - [timers]: the pending one-shot timers, each with the delay in
      milliseconds it was started with;
    - [trace]: the effects so far;
    - [seed]: the [int64 seed] of [Random::getSystemRandom ()]. *)
Record world := mkWorld {
  heap : gmap loc object;
  cells : gmap cell ptr;
  timers : list (Z * callback);
  trace : list effect;
  seed : Z
}.

Definition set_heap (h : gmap loc object) (st : world) : world :=
  mkWorld h (cells st) (timers st) (trace st) (seed st).
Definition set_cells (cs : gmap cell ptr) (st : world) : world :=
  mkWorld (heap st) cs (timers st) (trace st) (seed st).
Definition set_timers (ts : list (Z * callback)) (st : world) : world :=
  mkWorld (heap st) (cells st) ts (trace st) (seed st).
Definition emit (e : effect) (st : world) : world :=
  mkWorld (heap st) (cells st) (timers st) (trace st ++ [e]) (seed st).
Definition set_seed (s : Z) (st : world) : world :=
  mkWorld (heap st) (cells st) (timers st) (trace st) s.

(** The state of a process that has just started: nothing allocated, no
    timer pending, nothing written; the system random generator is seeded
    from the clock, so its seed is arbitrary. *)
Definition initial (s : Z) : world := mkWorld ∅ ∅ [] [] s.

(** ** The monad of statements

    A statement runs in a state and either yields a value and a new state,
    or has undefined behaviour (a dangling or null pointer is dereferenced,
    storage is released twice), or is [Infeasible]: the environment was asked
    for a choice it cannot make (an allocation at an address in use, a timer
    that is not pending). *)
Inductive result (A : Type) :=
| Ok (x : A) (st : world)
| UB
| Infeasible.
Arguments Ok {A} x st.
Arguments UB {A}.
Arguments Infeasible {A}.

Definition M (A : Type) : Type := world -> result A.

Definition ret {A} (x : A) : M A := fun st => Ok x st.

Definition bind {A B} (m : M A) (k : A -> M B) : M B :=
  fun st =>
    match m st with
    | Ok x st' => k x st'
    | UB => UB
    | Infeasible => Infeasible
    end.

Notation "'let*' x := m 'in' k" := (bind m (fun x => k))
  (at level 10, x name, m at level 100, k at level 200).
Notation "m ;;; k" := (bind m (fun _ => k))
  (at level 100, k at level 200, right associativity).

Definition fault {A} : M A := fun _ => UB.

Definition when_ (b : bool) (m : M unit) : M unit :=
  if b then m else ret tt.

(** ** The JUCE library *)

(** *** [DBG]

    Modelled from the spec: the [DBG] macro of the JUCE library, the
    diagnostic of section 4.1.  It writes its string to the debug output (in
    a debug build, the build modelled here; a release build compiles it
    away). *)
Definition DBG (msg : string) : M unit :=
  fun st => Ok tt (emit (Dbg msg) st).

(** *** [juce::Random]

    JUCE library code, not in the repository, and not described by the
    specification; the two functions are embedded as [juce_Random.cpp] has
    them:
<<
    int Random::nextInt() noexcept
    {
        seed = (int64) (((((uint64) seed) * 0x5deece66dLL) + 11) & 0xffffffffffffLL);
        return (int) (seed >> 16);
    }

    int Random::nextInt (const int maxValue) noexcept
    {
        jassert (maxValue > 0);
        return (int) ((((unsigned int) nextInt()) * (uint64) maxValue) >> 32);
    }
>>
    The header documents the result of the second as "a random integer
    between 0 (inclusive) and maxValue (exclusive)".  The casts are written
    out: [to_uint64] and [to_uint32] wrap to the unsigned range, [to_int64]
    and [to_int32] to the signed one. *)
Definition to_uint64 (x : Z) : Z := x mod 2 ^ 64.
Definition to_uint32 (x : Z) : Z := x mod 2 ^ 32.
Definition to_int32 (x : Z) : Z := (x + 2 ^ 31) mod 2 ^ 32 - 2 ^ 31.
Definition to_int64 (x : Z) : Z := (x + 2 ^ 63) mod 2 ^ 64 - 2 ^ 63.

Definition next_seed (s : Z) : Z :=
  to_int64 (Z.land (to_uint64 (to_uint64 (to_uint64 s * 0x5deece66d) + 11))
                   0xffffffffffff).

Definition Random_nextInt_raw : M Z :=
  fun st =>
    let s := next_seed (seed st) in
    Ok (to_int32 (Z.shiftr s 16)) (set_seed s st).

Definition scale_to (maxValue r : Z) : Z :=
  to_int32 (Z.shiftr (to_uint64 (to_uint32 r * to_uint64 maxValue)) 32).

Definition Random_nextInt (maxValue : Z) : M Z :=
  let* r := Random_nextInt_raw in
  ret (scale_to maxValue r).

(** *** [juce::Timer::callAfterDelay]

    Modelled from the spec: [Timer::callAfterDelay] of the JUCE library, the
    scheduler of section 4.3.  It starts a one-shot timer: the function is
    called once, later, from the message loop, and the timer is then
    deleted. *)
Definition Timer_callAfterDelay (milliseconds : Z) (f : callback) : M unit :=
  fun st => Ok tt (set_timers (timers st ++ [(milliseconds, f)]) st).

(** *** The free store *)

(** [operator new] followed by the constructors of the base class and of the
    members: the allocator hands out an address that is not in use; a
    [Component] starts with an empty name and a master with a null
    [sharedPointer]. *)
Definition allocate (a : loc) : M ptr :=
  fun st =>
    match heap st !! a with
    | Some _ => Infeasible
    | None => Ok (Some a) (set_heap (<[a := mkObject "" None]> (heap st)) st)
    end.

(** Reading the object a pointer points to; a null or dangling pointer has
    no object behind it. *)
Definition deref (p : ptr) : M object :=
  fun st =>
    match p with
    | None => UB
    | Some a =>
        match heap st !! a with
        | Some o => Ok o st
        | None => UB
        end
    end.

Definition store (a : loc) (o : object) : M unit :=
  fun st => Ok tt (set_heap (<[a := o]> (heap st)) st).

(** Modelled from the spec: [Component::getName] and [Component::setName] of
    the JUCE library, called through a pointer: the reading and writing of
    the label of section 3.  A call through a null or dangling pointer is
    undefined. *)
Definition Component_getName (p : ptr) : M string :=
  let* o := deref p in
  ret (componentName o).

Definition Component_setName (p : ptr) (newName : string) : M unit :=
  let* o := deref p in
  match p with
  | Some a => store a (mkObject newName (masterReference o))
  | None => fault
  end.

(** *** [juce::WeakReference]

    JUCE library code, not in the repository.  The specification describes
    it in sections 3 and 4.2: the shared cell is its Liveness Cell, the
    reference its Weak Handle, the constructor from a pointer is bind, the
    conversion to [bool] is isAlive and [get] is resolve.  The definitions
    keep the names of [juce_WeakReference.h]. *)

(** Modelled from the spec: [SharedPointer::get] of the JUCE library, the
    read of a Liveness Cell.  It returns the cell's [owner]; a cell that was
    never allocated cannot be read. *)
Definition SharedPointer_get (c : cell) : M ptr :=
  fun st =>
    match cells st !! c with
    | Some o => Ok o st
    | None => UB
    end.

(** Modelled from the spec: [SharedPointer::clearPointer] of the JUCE
    library, the invalidation of a Liveness Cell: [owner = nullptr]. *)
Definition SharedPointer_clearPointer (c : cell) : M unit :=
  fun st =>
    match cells st !! c with
    | Some _ => Ok tt (emit (Cleared c) (set_cells (<[c := nullptr]> (cells st)) st))
    | None => UB
    end.

(** Modelled from the spec: [Master::getSharedPointer (object)] of the JUCE
    library: the one cell of an instance, with [owner = object].  The
    library creates it when the first weak reference is taken (which the
    constructor of [SelfDestructingObject] does at once) and returns the
    same cell ever after. *)
Definition Master_getSharedPointer (a : loc) : M cell :=
  let* o := deref (Some a) in
  match masterReference o with
  | Some c => ret c
  | None =>
      fun st =>
        let c := fresh (dom (cells st)) in
        Ok c (set_cells (<[c := Some a]> (cells st))
                (set_heap (<[a := mkObject (componentName o) (Some c)]> (heap st)) st))
  end.

(** Modelled from the spec: [WeakReference::getRef], the binding of a Weak
    Handle: a null source gives a null holder. *)
Definition getRef (p : ptr) : M (option cell) :=
  match p with
  | Some a => let* c := Master_getSharedPointer a in ret (Some c)
  | None => ret None
  end.

(** Modelled from the spec: the constructors and assignment of
    [juce::WeakReference]: [WeakReference()], [WeakReference (T* object)],
    the copy constructor and [operator= (T* newObject)]. *)
Definition WeakReference_default : WeakReference := mkWeak None.

Definition WeakReference_of (p : ptr) : M WeakReference :=
  let* h := getRef p in
  ret (mkWeak h).

Definition WeakReference_copy (other : WeakReference) : WeakReference :=
  mkWeak (holder other).

Definition WeakReference_assign (_ : WeakReference) (newObject : ptr) : M WeakReference :=
  WeakReference_of newObject.

(** Modelled from the spec: [WeakReference::get], resolve:
    [holder != nullptr ? holder->get() : nullptr]. *)
Definition WeakReference_get (w : WeakReference) : M ptr :=
  match holder w with
  | Some c => SharedPointer_get c
  | None => ret nullptr
  end.

(** Modelled from the spec: the conversion of a [juce::WeakReference] in a
    condition, isAlive: [get() != nullptr]. *)
Definition WeakReference_bool (w : WeakReference) : M bool :=
  let* p := WeakReference_get w in
  ret (bool_decide (p <> nullptr)).

(** Modelled from the spec: the destruction protocol of section 4.1, which
    the macro [JUCE_DECLARE_WEAK_REFERENCEABLE] implements.  [delete p] on a
    null pointer does nothing.  Otherwise the destructor runs: the member
    [masterReference] is destroyed, and the destructor the macro gives it
    calls [clear()], which clears the shared cell if there is one; then the
    storage is released. *)
Definition Master_clear (o : object) : M unit :=
  match masterReference o with
  | Some c => SharedPointer_clearPointer c
  | None => ret tt
  end.

Definition release (a : loc) : M unit :=
  fun st => Ok tt (emit (Freed a) (set_heap (delete a (heap st)) st)).

Definition delete_ (p : ptr) : M unit :=
  match p with
  | None => ret tt
  | Some a =>
      let* o := deref p in
      Master_clear o;;;
      release a
  end.

(** *** The message loop

    Modelled from the spec: the scheduler of section 4.3 running an action.
    The loop picks a pending timer: the timer is one-shot, so it is removed,
    and its function is called (by [timerCallback] below).  Any pending
    timer may be picked: the order in which delays elapse is left open. *)
Definition take_timer (i : nat) : M callback :=
  fun st =>
    match timers st !! i with
    | Some (_, f) => Ok f (set_timers (delete i (timers st)) st)
    | None => Infeasible
    end.

(** ** The program *)

(** *** [Source/SelfDestructingObject.h] *)

(** Lines 10 to 15, the body of the lambda:
<<
    if (weak)
        delete weak.get ();

    DBG ("Deleted object");
>> *)
Definition selfDestruct (weak : WeakReference) : M unit :=
  let* alive := WeakReference_bool weak in
  when_ alive (let* p := WeakReference_get weak in delete_ p);;;
  DBG "Deleted object".

Definition call (f : callback) : M unit :=
  match f with
  | SelfDestruct weak => selfDestruct weak
  end.

Definition timerCallback (i : nat) : M unit :=
  let* f := take_timer i in
  call f.

(** Lines 8 to 16, the constructor, run by [new SelfDestructingObject ()] at
    the address the allocator chose:
<<
    Timer::callAfterDelay (Random::getSystemRandom ().nextInt (3000),
                           [weak = WeakReference (this)](){ ... });
>> *)
Definition new_SelfDestructingObject (a : loc) : M ptr :=
  let* this := allocate a in
  let* delay := Random_nextInt 3000 in
  let* weak := WeakReference_of this in
  Timer_callAfterDelay delay (SelfDestruct weak);;;
  ret this.

(** *** [Source/MainComponent.cpp] *)

(** What the two lambdas of the constructor capture: [obj] by value in
    [crashButton.onClick], [weak] in [checkButton.onClick]. *)
Record MainComponent := mkMainComponent {
  crash_obj : ptr;
  check_weak : WeakReference
}.

(** Lines 20 to 39 of the constructor. *)
Definition MainComponent_new (a : loc) : M MainComponent :=
  let* obj := new_SelfDestructingObject a in
  Component_setName obj "Self Destructing Object";;;
  let* weak := WeakReference_of obj in
  ret (mkMainComponent obj weak).

(** Lines 26 to 31. *)
Definition crashButton_onClick (obj : ptr) : M unit :=
  if bool_decide (obj <> nullptr) then
    let* n := Component_getName obj in
    DBG ("Name: " ++ n)
  else
    DBG "Object has been deleted".

(** Lines 34 to 39. *)
Definition checkButton_onClick (weak : WeakReference) : M unit :=
  let* alive := WeakReference_bool weak in
  if alive then
    let* p := WeakReference_get weak in
    let* n := Component_getName p in
    DBG ("Name: " ++ n)
  else
    DBG "Object has been deleted".

(** *** [Source/MainComponent.h] *)

(** Line 148, [WeakReferenceableObject::printSomething], called through a
    pointer. *)
Definition printSomething (p : ptr) (dbg : string) : M unit :=
  deref p;;;
  DBG dbg.

(** Lines 155 to 174, [WeakReferenceExample]; [a] is the address
    [std::make_unique] obtains, and the [unique_ptr] deletes the object where
    the inner block ends. *)
Definition WeakReferenceExample (a : loc) : M unit :=
  let weak := WeakReference_default in
  let* obj := allocate a in
  let* weak := WeakReference_assign weak obj in
  let* alive := WeakReference_bool weak in
  when_ alive (let* p := WeakReference_get weak in printSomething p "Hello");;;
  delete_ obj;;;
  let* alive := WeakReference_bool weak in
  when_ alive (let* p := WeakReference_get weak in
               printSomething p "This will not be printed").

(** ** Runs

    What code written against these classes can do, one operation at a time:
    the general setting in which the properties of weak references are
    proved.  The program's own runs are the special case below. *)
Inductive op :=
| OpNewSelfDestructing (a : loc)
| OpNewWeakReferenceable (a : loc)
| OpSetName (p : ptr) (n : string)
| OpBind (p : ptr)
| OpDelete (p : ptr)
| OpTimer (i : nat)
| OpCheckClick (w : WeakReference)
| OpCrashClick (p : ptr)
| OpExample (a : loc).

Definition step (o : op) : M unit :=
  match o with
  | OpNewSelfDestructing a => new_SelfDestructingObject a;;; ret tt
  | OpNewWeakReferenceable a => allocate a;;; ret tt
  | OpSetName p n => Component_setName p n
  | OpBind p => WeakReference_of p;;; ret tt
  | OpDelete p => delete_ p
  | OpTimer i => timerCallback i
  | OpCheckClick w => checkButton_onClick w
  | OpCrashClick p => crashButton_onClick p
  | OpExample a => WeakReferenceExample a
  end.

Fixpoint exec (ops : list op) : M unit :=
  match ops with
  | [] => ret tt
  | o :: rest => step o;;; exec rest
  end.

(** The events of the application once [MainComponent] is constructed: the
    message loop runs the pending timer, or the user clicks a button. *)
Inductive event :=
| TimerFires
| ClickCrash
| ClickCheck.

Definition op_of_event (mc : MainComponent) (e : event) : op :=
  match e with
  | TimerFires => OpTimer 0
  | ClickCrash => OpCrashClick (crash_obj mc)
  | ClickCheck => OpCheckClick (check_weak mc)
  end.

(** The application: [MainComponent] is constructed in a fresh process, then
    the events happen in order. *)
Definition application (a : loc) (evs : list event) : M MainComponent :=
  let* mc := MainComponent_new a in
  exec (map (op_of_event mc) evs);;;
  ret mc.

(** ** The vocabulary of the properties *)

(** The instance at address [a] whose master holds the cell [c] is live. *)
Definition live_instance (st : world) (a : loc) (c : cell) : Prop :=
  heap st !! a ≫= masterReference = Some c.

(** A weak reference that exists in a state: its cell, if it holds one, is
    allocated (the reference counts it). *)
Definition handle_wf (st : world) (w : WeakReference) : Prop :=
  match holder w with
  | Some c => is_Some (cells st !! c)
  | None => True
  end.

(** The invariant of the free store: a cell names an address exactly when
    the object at that address is live and its master holds that cell; and
    the weak reference captured by a pending timer exists. *)
Record wf (st : world) : Prop := mkWf {
  wf_cells : forall c a, cells st !! c = Some (Some a) <-> live_instance st a c;
  wf_timers : forall d w, (d, SelfDestruct w) ∈ timers st -> handle_wf st w
}.

(** How the cells change over time: a cell stays allocated, and its owner
    either stays or becomes null; a null owner stays null. *)
Definition evolves (st st' : world) : Prop :=
  forall c o, cells st !! c = Some o ->
              cells st' !! c = Some o \/ cells st' !! c = Some nullptr.

(** A statement keeps the invariant and lets the cells evolve. *)
Definition sound {A} (m : M A) : Prop :=
  forall st x st', wf st -> m st = Ok x st' -> wf st' /\ evolves st st'.

(** A state is reachable when a run of operations leads to it from the
    start of a process. *)
Definition reachable (st : world) : Prop :=
  exists s ops, exec ops (initial s) = Ok tt st.

(** The state a run of operations from the start of a process ends in, for
    stating examples. *)
Definition state_after (s : Z) (ops : list op) : world :=
  match exec ops (initial s) with
  | Ok _ st => st
  | _ => initial s
  end.

(** The line the timer's callback writes. *)
Definition is_notice (e : effect) : bool :=
  match e with
  | Dbg m => String.eqb m "Deleted object"
  | _ => false
  end.

(** How many times ["Deleted object"] was written. *)
Definition notices (st : world) : nat :=
  length (List.filter is_notice (trace st)).

(** Counting the operations of a kind in a run: the timer callbacks that
    ran, the instances that were constructed. *)
Definition is_timer (o : op) : bool :=
  match o with OpTimer _ => true | _ => false end.

Definition is_construction (o : op) : bool :=
  match o with OpNewSelfDestructing _ => true | _ => false end.

Definition count (P : op -> bool) (ops : list op) : nat :=
  length (List.filter P ops).

(** The two steps of a destruction. *)
Definition is_destruction (e : effect) : bool :=
  match e with
  | Dbg _ => false
  | Cleared _ | Freed _ => true
  end.

(** The destructions of a run, in order. *)
Definition destructions (st : world) : list effect :=
  List.filter is_destruction (trace st).

(** The operations of a party that only observes: it binds weak references,
    clicks the buttons, and lets the message loop run timers. *)
Definition observer (o : op) : bool :=
  match o with
  | OpBind _ | OpCheckClick _ | OpCrashClick _ | OpTimer _ => true
  | _ => false
  end.

(** The delay the constructor draws when the generator's seed is [s]. *)
Definition drawn_delay (s : Z) : Z :=
  scale_to 3000 (to_int32 (Z.shiftr (next_seed s) 16)).

(** The state [MainComponent]'s constructor leaves in a fresh process. *)
Definition constructed (s : Z) (a : loc) : world :=
  mkWorld {[a := mkObject "Self Destructing Object" (Some 1%positive)]}
          {[1%positive := Some a]}
          [(drawn_delay s, SelfDestruct (mkWeak (Some 1%positive)))]
          [] (next_seed s).

(** The states of the application while the timer is pending, and once it
    has fired. *)
Record live_phase (a : loc) (st : world) : Prop := mkLive {
  live_heap : heap st = {[a := mkObject "Self Destructing Object" (Some 1%positive)]};
  live_cells : cells st = {[1%positive := Some a]};
  live_timers : exists d, timers st = [(d, SelfDestruct (mkWeak (Some 1%positive)))];
  live_destructions : destructions st = []
}.

Record dead_phase (a : loc) (st : world) : Prop := mkDead {
  dead_heap : heap st = ∅;
  dead_cells : cells st = {[1%positive := nullptr]};
  dead_timers : timers st = [];
  dead_destructions : destructions st = [Cleared 1; Freed a]
}.

(** The operations that do not destroy the instance at [a]: no timer fires,
    and nobody deletes it. *)
Definition keeps (a : loc) (o : op) : bool :=
  match o with
  | OpTimer _ => false
  | OpDelete p => negb (bool_decide (p = Some a))
  | _ => true
  end.

(** The name the component at [a] has after a run, given the name before. *)
Definition label_step (a : loc) (n : string) (o : op) : string :=
  match o with
  | OpSetName p n' => if bool_decide (p = Some a) then n' else n
  | _ => n
  end.

Definition label_after (a : loc) (ops : list op) (n : string) : string :=
  fold_left (label_step a) ops n.

(** The 32-bit value the generator produces from the seed [s], before it is
    scaled; the seed that precedes a state of the generator; and the least
    32-bit value that scales to the delay [d]. *)
Definition raw (s : Z) : Z := Z.shiftr (next_seed s) 16.

Definition prev_seed (x : Z) : Z := ((x - 11) * 0xdfe05bcb1365) mod 2 ^ 48.

Definition lowest (d : Z) : Z := (d * 2 ^ 32 + 2999) / 3000.

(** A seed from which the constructor draws the delay [d]. *)
Definition seed_for (d : Z) : Z := prev_seed (lowest d * 2 ^ 16).

(** ** More vocabulary: properties beyond the claims *)

(** The operations that destroy nothing that existed before: everything but
    a timer callback and a [delete].  ([WeakReferenceExample] destroys only
    the object it has made itself.) *)
Definition quiet (o : op) : bool :=
  match o with
  | OpTimer _ | OpDelete _ => false
  | _ => true
  end.

(** The operations of a program in which every object is a
    [SelfDestructingObject] left to itself: objects are constructed, names
    set, references bound, buttons clicked and timers fire, but nobody else
    deletes an object. *)
Definition self_managed (o : op) : bool :=
  match o with
  | OpDelete _ | OpNewWeakReferenceable _ | OpExample _ => false
  | _ => true
  end.

(** The cell held by the weak reference a pending timer has captured. *)
Definition timer_cell (t : Z * callback) : option cell :=
  match snd t with
  | SelfDestruct w => holder w
  end.

(** The state of such a program: every pending timer holds the cell of a
    live object, no two timers hold the same cell, every live object is
    held by a pending timer, and there are as many live objects as pending
    timers. *)
Record managed (st : world) : Prop := mkManaged {
  managed_timers :
    forall t, t ∈ timers st ->
              exists c a, timer_cell t = Some c /\ cells st !! c = Some (Some a);
  managed_distinct : NoDup (timer_cell <$> timers st);
  managed_heap :
    forall a o, heap st !! a = Some o ->
                exists c t, masterReference o = Some c /\
                            t ∈ timers st /\ timer_cell t = Some c;
  managed_size : size (heap st) = length (timers st)
}.

Definition is_release (e : effect) : bool :=
  match e with
  | Freed _ => true
  | _ => false
  end.

(** The application as a two-state machine.  [fired] says whether the timer
    has fired; each event writes its lines, and two events cannot go on: a
    second firing of the one-shot timer is not possible, and a click on the
    crash button after the firing has undefined behaviour. *)
Inductive verdict :=
| Writes (t : list effect) (fired : bool)
| Faults
| Impossible.

Definition event_effects (a : loc) (fired : bool) (e : event) : list effect :=
  match e with
  | TimerFires => [Cleared 1; Freed a; Dbg "Deleted object"]
  | ClickCrash => [Dbg "Name: Self Destructing Object"]
  | ClickCheck =>
      [Dbg (if fired then "Object has been deleted"
            else "Name: Self Destructing Object")]
  end.

Fixpoint replay (a : loc) (fired : bool) (evs : list event) : verdict :=
  match evs with
  | [] => Writes [] fired
  | e :: rest =>
      match e, fired with
      | TimerFires, true => Impossible
      | ClickCrash, true => Faults
      | _, _ =>
          match replay a (match e with TimerFires => true | _ => fired end) rest with
          | Writes t f => Writes (event_effects a fired e ++ t) f
          | v => v
          end
      end
  end.

(** The state of the application, given whether the timer has fired and
    what has been written. *)
Definition application_state (s : Z) (a : loc) (fired : bool) (t : list effect) : world :=
  if fired then
    mkWorld ∅ {[1%positive := nullptr]} [] t (next_seed s)
  else
    mkWorld {[a := mkObject "Self Destructing Object" (Some 1%positive)]}
            {[1%positive := Some a]}
            [(drawn_delay s, SelfDestruct (mkWeak (Some 1%positive)))]
            t (next_seed s).

(** ** [Source/MainComponent.h]: the macros *)


(** ** [Source/MainComponent.cpp]: the layout *)

(** [juce::Rectangle<int>]: JUCE library code, not in the repository and not
    described by the specification; the functions [resized] calls are
    embedded as [juce_Rectangle.h] has them.  A rectangle is its position
    and its size; the division of [int]s truncates towards zero. *)
Record Rectangle := mkRectangle {
  rect_x : Z;
  rect_y : Z;
  rect_w : Z;
  rect_h : Z
}.

(** [jmin (a, b)] is [b < a ? b : a]. *)
Definition jmin (a b : Z) : Z := if Z.ltb b a then b else a.

(** [Rectangle (width, height)]: the rectangle of that size at the origin. *)
Definition Rectangle_of_size (width height : Z) : Rectangle :=
  mkRectangle 0 0 width height.

(** [removeFromLeft (amountToRemove)]: cuts a strip off the left of the
    rectangle, which is changed in place, and returns the strip:
<<
    const Rectangle r (pos.x, pos.y, jmin (amountToRemove, w), h);
    pos.x += r.w; w -= r.w;
    return r;
>>
    The pair is the strip and the rectangle as it is left. *)
Definition removeFromLeft (amountToRemove : Z) (this : Rectangle) : Rectangle * Rectangle :=
  let r := mkRectangle (rect_x this) (rect_y this)
                       (jmin amountToRemove (rect_w this)) (rect_h this) in
  (r, mkRectangle (rect_x this + rect_w r) (rect_y this)
                  (rect_w this - rect_w r) (rect_h this)).

(** [withSizeKeepingCentre (newWidth, newHeight)]:
<<
    return { pos.x + (w - newWidth) / 2, pos.y + (h - newHeight) / 2,
             newWidth, newHeight };
>> *)
Definition withSizeKeepingCentre (newWidth newHeight : Z) (this : Rectangle) : Rectangle :=
  mkRectangle (rect_x this + Z.quot (rect_w this - newWidth) 2)
              (rect_y this + Z.quot (rect_h this - newHeight) 2)
              newWidth newHeight.

(** [Component::getLocalBounds] of a component of the given size. *)
Definition getLocalBounds (width height : Z) : Rectangle :=
  mkRectangle 0 0 width height.

(** Lines 54 to 60, [MainComponent::resized], for a component of the given
    size: the bounds given to [checkButton] and to [crashButton].
<<
    auto bounds = getLocalBounds ();
    auto b = Rectangle<int> { 100, 25 };
    checkButton.setBounds (bounds.removeFromLeft (bounds.getWidth () / 2)
                                 .withSizeKeepingCentre (b.getWidth (), b.getHeight ()));
    crashButton.setBounds (bounds.withSizeKeepingCentre (b.getWidth (), b.getHeight ()));
>> *)
Definition resized (width height : Z) : Rectangle * Rectangle :=
  let bounds := getLocalBounds width height in
  let b := Rectangle_of_size 100 25 in
  let '(strip, bounds) := removeFromLeft (Z.quot (rect_w bounds) 2) bounds in
  (withSizeKeepingCentre (rect_w b) (rect_h b) strip,
   withSizeKeepingCentre (rect_w b) (rect_h b) bounds).

(** Two rectangles overlap when they share a point. *)
Definition overlap (r1 r2 : Rectangle) : Prop :=
  rect_x r1 < rect_x r2 + rect_w r2 /\ rect_x r2 < rect_x r1 + rect_w r1 /\
  rect_y r1 < rect_y r2 + rect_h r2 /\ rect_y r2 < rect_y r1 + rect_h r1.

(** A rectangle lies inside a component of the given size. *)
Definition inside (r : Rectangle) (width height : Z) : Prop :=
  0 <= rect_x r /\ rect_x r + rect_w r <= width /\
  0 <= rect_y r /\ rect_y r + rect_h r <= height.

(** ** Tactics *)

(** Unfolds the statements of a hypothesis down to the state and splits it
    along their case distinctions. *)
Ltac library :=
  unfold WeakReference_bool, WeakReference_assign, WeakReference_of,
    WeakReference_get, getRef, Master_getSharedPointer, delete_, Master_clear,
    SharedPointer_get, SharedPointer_clearPointer, release,
    Component_getName, Component_setName, store, deref, allocate, DBG,
    Timer_callAfterDelay, Random_nextInt, Random_nextInt_raw, take_timer,
    when_, fault, bind, ret in *.

Ltac cases :=
  repeat match goal with
    | H : context [match ?x with _ => _ end] |- _ =>
        destruct x eqn:?; simplify_eq/=
    end.

Ltac run := library; simpl in *; cases; simplify_eq/=.

(** Unfolds the program's functions. *)
Ltac program :=
  unfold step, timerCallback, call, selfDestruct, new_SelfDestructingObject,
    checkButton_onClick, crashButton_onClick, WeakReferenceExample,
    printSomething in *.

(** Lookups in the one-object heap and one-cell store of the application. *)
Ltac singleton_lookups :=
  repeat match goal with
    | H : {[_ := _]} !! _ = Some _ |- _ =>
        apply lookup_singleton_Some in H as [? ?]; simplify_eq/=
    | H : {[_ := _]} !! _ = None |- _ =>
        apply lookup_singleton_None in H
    | H : ∅ !! _ = Some _ |- _ =>
        rewrite lookup_empty in H; discriminate H
    | H : [_] !! ?i = Some _ |- _ =>
        destruct i; simpl in H; simplify_eq/=
    | H : [] !! _ = Some _ |- _ => discriminate H
    end.

Ltac phase Hd :=
  split; simpl; rewrite ?delete_singleton_eq, ?insert_singleton_eq;
  unfold destructions; simpl; rewrite ?List.filter_app; simpl; rewrite ?Hd;
  eauto.

(** Lookups after an insertion or a deletion, by cases on the key. *)
Ltac map_lookups :=
  repeat match goal with
    | |- context [<[?l := _]> _ !! ?a] =>
        destruct (decide (l = a)) as [->|?];
        [rewrite lookup_insert_eq | rewrite lookup_insert_ne by done]
    | |- context [delete ?l _ !! ?a] =>
        destruct (decide (l = a)) as [->|?];
        [rewrite lookup_delete_eq | rewrite lookup_delete_ne by done]
    end.

(** ** Statements keep the invariant *)

Lemma bind_Ok {A B} (m : M A) (k : A -> M B) st y st' :
  bind m k st = Ok y st' <-> exists x st1, m st = Ok x st1 /\ k x st1 = Ok y st'.
Proof.
  unfold bind. split.
  - destruct (m st) as [x st1| |] eqn:E; try discriminate. eauto.
  - intros (x & st1 & -> & H). exact H.
Qed.

Lemma bind_UB {A B} (m : M A) (k : A -> M B) st :
  bind m k st = UB <->
  m st = UB \/ exists x st1, m st = Ok x st1 /\ k x st1 = UB.
Proof.
  unfold bind. split.
  - destruct (m st) as [x st1| |] eqn:E; try discriminate; eauto.
  - intros [-> | (x & st1 & -> & H)]; auto.
Qed.

Lemma evolves_refl st : evolves st st.
Proof. intros c o H. auto. Qed.

Lemma evolves_trans st1 st2 st3 :
  evolves st1 st2 -> evolves st2 st3 -> evolves st1 st3.
Proof.
  intros H12 H23 c o H.
  destruct (H12 c o H) as [H'|H']; destruct (H23 _ _ H') as [H''|H'']; auto.
Qed.

Lemma evolves_handle_wf st st' w :
  evolves st st' -> handle_wf st w -> handle_wf st' w.
Proof.
  unfold handle_wf. intros Hev. destruct (holder w) as [c|]; [|done].
  intros [o Ho]. destruct (Hev c o Ho) as [->| ->]; eauto.
Qed.

Lemma evolves_cleared st st' c :
  evolves st st' -> cells st !! c = Some nullptr -> cells st' !! c = Some nullptr.
Proof. intros Hev H. destruct (Hev c _ H); assumption. Qed.

Lemma wf_initial s : wf (initial s).
Proof.
  split.
  - intros c a. unfold live_instance. simpl. rewrite !lookup_empty. simpl. split; discriminate.
  - intros d w H. simpl in H. by apply not_elem_of_nil in H.
Qed.

Lemma sound_ret {A} (x : A) : sound (ret x).
Proof. intros st y st' Hwf [= <- <-]. split; [done | apply evolves_refl]. Qed.

Lemma sound_bind {A B} (m : M A) (k : A -> M B) :
  sound m -> (forall x, sound (k x)) -> sound (bind m k).
Proof.
  intros Hm Hk st y st' Hwf H. apply bind_Ok in H as (x & st1 & H1 & H2).
  destruct (Hm _ _ _ Hwf H1) as [Hwf1 Hev1].
  destruct (Hk x _ _ _ Hwf1 H2) as [Hwf2 Hev2].
  split; [done | by eapply evolves_trans].
Qed.

Lemma evolves_same st st' : cells st' = cells st -> evolves st st'.
Proof. intros E c o H. rewrite E. auto. Qed.

Lemma wf_same st st' :
  heap st' = heap st -> cells st' = cells st -> timers st' = timers st ->
  wf st -> wf st'.
Proof.
  intros Eh Ec Et [Hc Ht]. split.
  - intros c a. unfold live_instance. rewrite Eh, Ec. apply Hc.
  - intros d w. unfold handle_wf. rewrite Et, Ec. apply Ht.
Qed.

Lemma sound_DBG msg : sound (DBG msg).
Proof.
  intros st [] st' Hwf [= <-]. split; [by apply (wf_same st) | by apply evolves_same].
Qed.

Lemma sound_nextInt maxValue : sound (Random_nextInt maxValue).
Proof.
  intros st x st' Hwf H. run.
  split; [by apply (wf_same st) | by apply evolves_same].
Qed.

Lemma sound_allocate a : sound (allocate a).
Proof.
  intros st p st' [Hc Ht] H. run. split; [|by apply evolves_same].
  split; [|exact Ht].
  intros c a'. unfold live_instance in *. simpl. rewrite Hc.
  destruct (decide (a' = a)) as [->|Hne].
  - rewrite lookup_insert_eq. simpl.
    match goal with H : heap st !! a = None |- _ => rewrite H end.
    simpl. split; discriminate.
  - by rewrite lookup_insert_ne.
Qed.

Lemma sound_setName p n : sound (Component_setName p n).
Proof.
  intros st [] st' [Hc Ht] H. run. split; [|by apply evolves_same].
  split; [|exact Ht].
  intros c a'. unfold live_instance in *. simpl. rewrite Hc.
  destruct (decide (a' = l)) as [->|Hne].
  - rewrite lookup_insert_eq. simpl.
    match goal with H : heap _ !! l = Some _ |- _ => rewrite H end.
    done.
  - by rewrite lookup_insert_ne.
Qed.

Lemma fresh_cell_unused (cs : gmap cell ptr) : cs !! fresh (dom cs) = None.
Proof. apply not_elem_of_dom, is_fresh. Qed.

Lemma sound_getSharedPointer a : sound (Master_getSharedPointer a).
Proof.
  intros st c st' [Hc Ht] H. run.
  - split; [done | apply evolves_refl].
  - pose proof (fresh_cell_unused (cells st0)) as Hf.
    set (c := fresh (dom (cells st0))) in *.
    assert (Hev : evolves st0
      (set_cells (<[c:=Some a]> (cells st0))
         (set_heap (<[a:=mkObject (componentName x) (Some c)]> (heap st0)) st0))).
    { intros c' o Ho. left. simpl. rewrite lookup_insert_ne; [done|]. congruence. }
    split; [|exact Hev]. split.
    + intros c' a'. unfold live_instance in *. simpl.
      destruct (decide (c' = c)) as [->|Hnc]; destruct (decide (a' = a)) as [->|Hna];
        rewrite ?lookup_insert_eq, ?lookup_insert_ne by done; simpl.
      * done.
      * split; [congruence|]. intros H. apply Hc in H. congruence.
      * split; [|congruence]. intros H. apply Hc in H.
        unfold live_instance in H. rewrite Heqo0 in H. simpl in H. congruence.
      * apply Hc.
    + intros d w Hin. eapply evolves_handle_wf; [exact Hev|]. by eapply Ht.
Qed.

Lemma sound_WeakReference_of p : sound (WeakReference_of p).
Proof.
  unfold WeakReference_of, getRef. destruct p as [a|].
  - apply sound_bind; [|intros; apply sound_ret].
    apply sound_bind; [apply sound_getSharedPointer|intros; apply sound_ret].
  - apply sound_bind; intros; apply sound_ret.
Qed.

Lemma sound_delete p : sound (delete_ p).
Proof.
  intros st [] st' [Hc Ht] H. run.
  - rename select (heap _ !! _ = Some _) into Hh.
    rename select (masterReference _ = Some _) into Hm.
    rename select loc into a. rename select cell into c.
    pose proof (proj2 (Hc c a)) as Hl. unfold live_instance in Hl.
    rewrite Hh in Hl. specialize (Hl Hm).
    match goal with |- wf ?s /\ evolves ?s0 _ => assert (Hev : evolves s0 s) end.
    { intros c' o' Ho'. simpl. destruct (decide (c' = c)) as [->|Hn].
      - right. apply lookup_insert_eq.
      - left. by rewrite lookup_insert_ne. }
    split; [|exact Hev]. split.
    + intros c' a'. unfold live_instance in *. simpl.
      destruct (decide (c' = c)) as [->|Hnc]; destruct (decide (a' = a)) as [->|Hna];
        rewrite ?lookup_insert_eq, ?lookup_insert_ne, ?lookup_delete_eq,
          ?lookup_delete_ne by done; simpl.
      * split; discriminate.
      * split; [discriminate|]. intros H. apply Hc in H. congruence.
      * split; [|discriminate]. intros H. apply Hc in H.
        unfold live_instance in H. rewrite Hh in H. simpl in H. congruence.
      * apply Hc.
    + intros d w Hin. eapply evolves_handle_wf; [exact Hev|]. by eapply Ht.
  - rename select (heap _ !! _ = Some _) into Hh.
    rename select (masterReference _ = None) into Hm.
    rename select loc into a.
    split; [|by apply evolves_same]. split; [|exact Ht].
    intros c a'. unfold live_instance in *. simpl. rewrite Hc.
    destruct (decide (a' = a)) as [->|Hna];
      rewrite ?lookup_delete_eq, ?lookup_delete_ne by done; simpl; [|done].
    rewrite Hh. simpl. rewrite Hm. split; discriminate.
  - split; [done|apply evolves_refl].
Qed.

Lemma sound_callAfterDelay d w st x st' :
  wf st -> handle_wf st w ->
  Timer_callAfterDelay d (SelfDestruct w) st = Ok x st' ->
  wf st' /\ evolves st st'.
Proof.
  intros [Hc Ht] Hw H. run. split; [|by apply evolves_same].
  split; [exact Hc|]. intros d' w' Hin. simpl in Hin.
  apply elem_of_app in Hin as [Hin|Hin]; [by eapply Ht|].
  apply list_elem_of_singleton in Hin. by simplify_eq.
Qed.

Lemma WeakReference_of_handle_wf p st w st' :
  wf st -> WeakReference_of p st = Ok w st' -> handle_wf st' w.
Proof.
  intros [Hc _] H. unfold handle_wf. run; simpl; try done.
  - rename select (heap _ !! _ = Some _) into Hh.
    rename select (masterReference _ = Some _) into Hm.
    rename select loc into a.
    exists (Some a). apply Hc. unfold live_instance. by rewrite Hh.
  - rewrite lookup_insert_eq. eauto.
Qed.

(** Reading a weak reference changes nothing. *)
Lemma WeakReference_get_pure w st p st' :
  WeakReference_get w st = Ok p st' -> st' = st.
Proof. intros H. run; done. Qed.

Lemma WeakReference_bool_pure w st b st' :
  WeakReference_bool w st = Ok b st' -> st' = st.
Proof. intros H. run; done. Qed.

Lemma sound_get w : sound (WeakReference_get w).
Proof.
  intros st p st' Hwf H. apply WeakReference_get_pure in H as ->.
  split; [done|apply evolves_refl].
Qed.

Lemma sound_bool w : sound (WeakReference_bool w).
Proof.
  intros st p st' Hwf H. apply WeakReference_bool_pure in H as ->.
  split; [done|apply evolves_refl].
Qed.

Lemma sound_when b m : sound m -> sound (when_ b m).
Proof. intros Hm. destruct b; [exact Hm|apply sound_ret]. Qed.

Lemma sound_selfDestruct w : sound (selfDestruct w).
Proof.
  unfold selfDestruct.
  apply sound_bind; [apply sound_bool|intros alive].
  apply sound_bind; [|intros; apply sound_DBG].
  apply sound_when, sound_bind; [apply sound_get|intros; apply sound_delete].
Qed.

Lemma sound_getName p : sound (Component_getName p).
Proof.
  intros st n st' Hwf H. run. split; [done|apply evolves_refl].
Qed.

Lemma sound_deref p : sound (deref p).
Proof.
  intros st n st' Hwf H. run. split; [done|apply evolves_refl].
Qed.

Lemma sound_checkButton w : sound (checkButton_onClick w).
Proof.
  unfold checkButton_onClick.
  apply sound_bind; [apply sound_bool|intros [|]]; [|apply sound_DBG].
  apply sound_bind; [apply sound_get|intros p].
  apply sound_bind; [apply sound_getName|intros; apply sound_DBG].
Qed.

Lemma sound_crashButton p : sound (crashButton_onClick p).
Proof.
  unfold crashButton_onClick. case_bool_decide; [|apply sound_DBG].
  apply sound_bind; [apply sound_getName|intros; apply sound_DBG].
Qed.

Lemma sound_printSomething p dbg : sound (printSomething p dbg).
Proof.
  unfold printSomething.
  apply sound_bind; [apply sound_deref|intros; apply sound_DBG].
Qed.

Lemma sound_WeakReferenceExample a : sound (WeakReferenceExample a).
Proof.
  unfold WeakReferenceExample, WeakReference_assign.
  apply sound_bind; [apply sound_allocate|intros obj].
  apply sound_bind; [apply sound_WeakReference_of|intros weak].
  apply sound_bind; [apply sound_bool|intros alive].
  apply sound_bind.
  { apply sound_when, sound_bind; [apply sound_get|intros; apply sound_printSomething]. }
  intros _. apply sound_bind; [apply sound_delete|intros _].
  apply sound_bind; [apply sound_bool|intros alive'].
  apply sound_when, sound_bind; [apply sound_get|intros; apply sound_printSomething].
Qed.

Lemma sound_new_SelfDestructingObject a : sound (new_SelfDestructingObject a).
Proof.
  intros st p st' Hwf H. unfold new_SelfDestructingObject in H.
  apply bind_Ok in H as (this & st1 & H1 & H).
  apply bind_Ok in H as (delay & st2 & H2 & H).
  apply bind_Ok in H as (weak & st3 & H3 & H).
  apply bind_Ok in H as ([] & st4 & H4 & H).
  injection H as <- <-.
  destruct (sound_allocate _ _ _ _ Hwf H1) as [Hwf1 Hev1].
  destruct (sound_nextInt _ _ _ _ Hwf1 H2) as [Hwf2 Hev2].
  destruct (sound_WeakReference_of _ _ _ _ Hwf2 H3) as [Hwf3 Hev3].
  pose proof (WeakReference_of_handle_wf _ _ _ _ Hwf2 H3) as Hw.
  destruct (sound_callAfterDelay _ _ _ _ _ Hwf3 Hw H4) as [Hwf4 Hev4].
  split; [done|]. eauto using evolves_trans.
Qed.

Lemma take_timer_Ok i st f st' :
  take_timer i st = Ok f st' ->
  exists d, timers st !! i = Some (d, f) /\
            st' = set_timers (delete i (timers st)) st.
Proof. intros H. run. eauto. Qed.

Lemma sound_timerCallback i : sound (timerCallback i).
Proof.
  intros st [] st' Hwf H. unfold timerCallback in H.
  apply bind_Ok in H as (f & st1 & H1 & H).
  apply take_timer_Ok in H1 as (d & Hi & ->).
  assert (Hwf1 : wf (set_timers (delete i (timers st)) st)).
  { destruct Hwf as [Hc Ht]. split; [exact Hc|].
    intros d' w' Hin. simpl in Hin. apply (Ht d').
    by eapply list_elem_of_delete_inv. }
  destruct f as [w]. simpl in H.
  destruct (sound_selfDestruct w _ _ _ Hwf1 H) as [Hwf2 Hev].
  split; [done|]. intros c o Ho. by apply Hev.
Qed.

Lemma sound_step o : sound (step o).
Proof.
  destruct o; simpl.
  - apply sound_bind; [apply sound_new_SelfDestructingObject|intros; apply sound_ret].
  - apply sound_bind; [apply sound_allocate|intros; apply sound_ret].
  - apply sound_setName.
  - apply sound_bind; [apply sound_WeakReference_of|intros; apply sound_ret].
  - apply sound_delete.
  - apply sound_timerCallback.
  - apply sound_checkButton.
  - apply sound_crashButton.
  - apply sound_WeakReferenceExample.
Qed.

Lemma sound_exec ops : sound (exec ops).
Proof.
  induction ops as [|o ops IH]; simpl.
  - apply sound_ret.
  - apply sound_bind; [apply sound_step|intros; exact IH].
Qed.

Lemma exec_app ops1 ops2 st st' :
  exec (ops1 ++ ops2) st = Ok tt st' <->
  exists st1, exec ops1 st = Ok tt st1 /\ exec ops2 st1 = Ok tt st'.
Proof.
  revert st. induction ops1 as [|o ops1 IH]; intros st; simpl.
  - split; [eauto|]. by intros (st1 & [= <-] & H).
  - rewrite bind_Ok. split.
    + intros ([] & st1 & Ho & H). apply IH in H as (st2 & H1 & H2).
      exists st2. split; [|done]. apply bind_Ok. eauto.
    + intros (st2 & H1 & H2). apply bind_Ok in H1 as ([] & st1 & Ho & H1).
      exists tt, st1. split; [done|]. apply IH. eauto.
Qed.

Lemma reachable_wf st : reachable st -> wf st.
Proof.
  intros (s & ops & H). by destruct (sound_exec ops _ _ _ (wf_initial s) H).
Qed.

Lemma reachable_exec ops st st' :
  reachable st -> exec ops st = Ok tt st' -> reachable st'.
Proof.
  intros (s & ops0 & H0) H. exists s, (ops0 ++ ops)%list. apply exec_app. eauto.
Qed.

(** ** Weak references *)

Lemma WeakReference_get_Ok st w :
  handle_wf st w ->
  exists p, WeakReference_get w st = Ok p st /\
            WeakReference_bool w st = Ok (bool_decide (p <> nullptr)) st.
Proof.
  unfold handle_wf, WeakReference_bool, WeakReference_get, SharedPointer_get, bind, ret.
  destruct (holder w) as [c|]; [|eauto].
  intros [o ->]. eauto.
Qed.

Lemma WeakReference_cleared st w c :
  holder w = Some c -> cells st !! c = Some nullptr ->
  WeakReference_bool w st = Ok false st /\ WeakReference_get w st = Ok nullptr st.
Proof.
  intros Hh Hc.
  unfold WeakReference_bool, WeakReference_get, SharedPointer_get, bind, ret.
  rewrite Hh, Hc. done.
Qed.

Lemma WeakReference_live st w c a :
  holder w = Some c -> cells st !! c = Some (Some a) ->
  WeakReference_bool w st = Ok true st /\ WeakReference_get w st = Ok (Some a) st.
Proof.
  intros Hh Hc.
  unfold WeakReference_bool, WeakReference_get, SharedPointer_get, bind, ret.
  rewrite Hh, Hc. done.
Qed.

(** Every binding to a live instance whose master holds a cell yields a
    reference to that very cell, and changes nothing. *)
Lemma WeakReference_of_live st a c :
  live_instance st a c ->
  WeakReference_of (Some a) st = Ok (mkWeak (Some c)) st.
Proof.
  unfold live_instance. intros H.
  unfold WeakReference_of, getRef, Master_getSharedPointer, deref, bind, ret.
  destruct (heap st !! a) as [o|]; [|done]. simpl in H. by rewrite H.
Qed.

(** C6. Binding a weak reference to a null pointer, whether by the
    constructor, by assignment or by default construction, gives the
    reference with a null holder; in every state whatsoever that reference
    converts to [false] and [get] returns [nullptr]: it is never alive. *)
Theorem null_handle_never_alive :
  forall st w0,
    WeakReference_of nullptr st = Ok WeakReference_default st /\
    WeakReference_assign w0 nullptr st = Ok WeakReference_default st /\
    forall st',
      WeakReference_bool WeakReference_default st' = Ok false st' /\
      WeakReference_get WeakReference_default st' = Ok nullptr st'.
Proof. intros st w0. repeat split. Qed.

(** C7. A copy of a weak reference holds the same cell as the original, and
    in every state the two convert to the same boolean and resolve to the
    same pointer.  The copy is a value of its own: after any run from a
    reachable state, whatever happened to the instance, both still resolve,
    without a fault and to the same pointer; and when another object is then
    assigned to the original variable, the copy resolves as before. *)
Theorem copy_agrees :
  forall w st ops st' p w' st'',
    reachable st -> handle_wf st w ->
    exec ops st = Ok tt st' ->
    WeakReference_assign w p st' = Ok w' st'' ->
    holder (WeakReference_copy w) = holder w /\
    (forall s, WeakReference_bool (WeakReference_copy w) s = WeakReference_bool w s) /\
    (forall s, WeakReference_get (WeakReference_copy w) s = WeakReference_get w s) /\
    exists q,
      WeakReference_get w st' = Ok q st' /\
      WeakReference_get (WeakReference_copy w) st' = Ok q st' /\
      WeakReference_get (WeakReference_copy w) st'' = Ok q st''.
Proof.
  intros w st ops st' p w' st'' Hr Hw Hx Ha.
  split; [done|]. split; [done|]. split; [done|].
  pose proof (reachable_exec _ _ _ Hr Hx) as Hr'.
  destruct (sound_exec ops _ _ _ (reachable_wf _ Hr) Hx) as [Hwf' Hev].
  pose proof (evolves_handle_wf _ _ _ Hev Hw) as Hw'.
  destruct (WeakReference_get_Ok _ _ Hw') as (q & Hq & _).
  exists q. split; [done|]. split; [done|].
  unfold WeakReference_assign in Ha.
  destruct (sound_WeakReference_of p _ _ _ Hwf' Ha) as [_ Hev'].
  unfold WeakReference_get, WeakReference_copy, SharedPointer_get, ret in *. simpl in *.
  destruct (holder w) as [c|]; [|by simplify_eq].
  destruct (cells st' !! c) as [o|] eqn:Hc; [|done]. simplify_eq.
  destruct (Hev' c q Hc) as [->| H']; [done|].
  rewrite H'. f_equal.
  unfold WeakReference_of, getRef, Master_getSharedPointer, deref, bind, ret in Ha.
  destruct p as [a|]; [|by simplify_eq].
  destruct (heap st' !! a) as [o|]; [|done].
  destruct (masterReference o); simplify_eq; [congruence|].
  simpl in H'. rewrite lookup_insert_ne in H'; [congruence|].
  intros <-. rewrite fresh_cell_unused in Hc. done.
Qed.

(** C2. In every reachable state, [get] on a weak reference returns without
    a fault and without changing the state; the conversion to [bool] is
    [true] exactly when the pointer returned is not null; and a pointer that
    is not null is usable: it points to a live object, the one whose master
    holds the cell of the reference.  Otherwise the result is [nullptr]: an
    ordinary value, never the address of an object that is gone. *)
Theorem resolve_iff_alive :
  forall st w,
    reachable st -> handle_wf st w ->
    exists p,
      WeakReference_get w st = Ok p st /\
      WeakReference_bool w st = Ok (bool_decide (p <> nullptr)) st /\
      (p <> nullptr ->
       exists o, deref p st = Ok o st /\ masterReference o = holder w).
Proof.
  intros st w Hr Hw. destruct (WeakReference_get_Ok _ _ Hw) as (p & Hg & Hb).
  exists p. split; [done|]. split; [done|].
  intros Hp. destruct p as [a|]; [|done].
  unfold WeakReference_get, SharedPointer_get, ret in Hg.
  destruct (holder w) as [c|] eqn:Hh; [|by simplify_eq].
  destruct (cells st !! c) as [o|] eqn:Hc; simplify_eq.
  apply (wf_cells _ (reachable_wf _ Hr)) in Hc. unfold live_instance in Hc.
  unfold deref. destruct (heap st !! a) as [o|]; [|done]. eauto.
Qed.

(** C1. Take an instance that is live in a reachable state, at address [a]
    with cell [c], and any weak reference bound to it (by
    [WeakReference_of_live] these are the references that hold [c]).  Once a
    run has destroyed the instance, whichever way, then after every further
    run (new objects, at the same address too, new bindings, timers, clicks)
    the reference converts to [false] and resolves to [nullptr], and the
    instance is not live again. *)
Theorem no_resurrection :
  forall st0 a c w ops1 st1 ops2 st2,
    reachable st0 -> live_instance st0 a c -> holder w = Some c ->
    exec ops1 st0 = Ok tt st1 -> ~ live_instance st1 a c ->
    exec ops2 st1 = Ok tt st2 ->
    WeakReference_bool w st2 = Ok false st2 /\
    WeakReference_get w st2 = Ok nullptr st2 /\
    ~ live_instance st2 a c.
Proof.
  intros st0 a c w ops1 st1 ops2 st2 Hr Hlive Hh H1 Hdead H2.
  pose proof (reachable_wf _ Hr) as Hwf0.
  destruct (sound_exec ops1 _ _ _ Hwf0 H1) as [Hwf1 Hev1].
  destruct (sound_exec ops2 _ _ _ Hwf1 H2) as [Hwf2 Hev2].
  apply (wf_cells _ Hwf0) in Hlive.
  assert (Hc1 : cells st1 !! c = Some nullptr).
  { destruct (Hev1 _ _ Hlive) as [H|H]; [|done].
    apply (wf_cells _ Hwf1) in H. done. }
  pose proof (evolves_cleared _ _ _ Hev2 Hc1) as Hc2.
  destruct (WeakReference_cleared _ _ _ Hh Hc2) as [Hb Hg].
  split; [done|]. split; [done|].
  intros H. apply (wf_cells _ Hwf2) in H. congruence.
Qed.

(** C9. In every reachable state the body of the timer's lambda runs without
    a fault, on any well-formed weak reference.  Either the reference is not
    alive (the instance was destroyed before the timer fired, or the
    reference is null): then nothing is deleted, the state is unchanged but
    for the line written.  Or it resolves to an address: then a live object
    is there, the one whose master holds the cell of the reference; that
    object and no other is destroyed, its cell cleared first. *)
Theorem callback_deletes_only_live :
  forall st w,
    reachable st -> handle_wf st w ->
    (WeakReference_bool w st = Ok false st /\
     selfDestruct w st = Ok tt (emit (Dbg "Deleted object") st))
    \/
    (exists a c o,
        WeakReference_bool w st = Ok true st /\
        WeakReference_get w st = Ok (Some a) st /\
        holder w = Some c /\
        heap st !! a = Some o /\ masterReference o = Some c /\
        selfDestruct w st =
          Ok tt (emit (Dbg "Deleted object")
                   (emit (Freed a)
                      (set_heap (delete a (heap st))
                         (emit (Cleared c)
                            (set_cells (<[c := nullptr]> (cells st)) st)))))).
Proof.
  intros st w Hr Hw. pose proof (reachable_wf _ Hr) as Hwf.
  unfold handle_wf in Hw. destruct (holder w) as [c|] eqn:Hh.
  - destruct Hw as [[a|] Hc].
    + right. pose proof (proj1 (wf_cells _ Hwf c a) Hc) as Hl.
      unfold live_instance in Hl.
      destruct (heap st !! a) as [o|] eqn:Ho; [|done]. simpl in Hl.
      exists a, c, o.
      destruct (WeakReference_live _ _ _ _ Hh Hc) as [Hb Hg].
      repeat (split; [done|]).
      unfold selfDestruct, bind. rewrite Hb. simpl. unfold bind. rewrite Hg.
      unfold delete_, deref, bind. rewrite Ho.
      unfold Master_clear. rewrite Hl. unfold SharedPointer_clearPointer.
      rewrite Hc. reflexivity.
    + left. destruct (WeakReference_cleared _ _ _ Hh Hc) as [Hb Hg].
      split; [done|]. unfold selfDestruct, bind. rewrite Hb. reflexivity.
  - left. unfold selfDestruct, WeakReference_bool, WeakReference_get, bind, ret.
    rewrite Hh. done.
Qed.

(** *** Examples of the theorems above

    An object is constructed at address 5, its timer fires, and a second
    object is constructed at the same address. *)
Lemma no_resurrection_example :
  let ops0 := [OpNewSelfDestructing 5] in
  let ops1 := [OpTimer 0] in
  let ops2 := [OpNewSelfDestructing 5; OpBind (Some 5%positive)] in
  let w := mkWeak (Some 1%positive) in
  let st2 := state_after 42 (ops0 ++ ops1 ++ ops2) in
  WeakReference_bool w st2 = Ok false st2 /\
  WeakReference_get w st2 = Ok nullptr st2 /\
  ~ live_instance st2 5 1.
Proof.
  intros ops0 ops1 ops2 w st2.
  apply (no_resurrection (state_after 42 ops0) 5 1 w
           ops1 (state_after 42 (ops0 ++ ops1)) ops2 st2).
  - exists 42, ops0. vm_compute. reflexivity.
  - vm_compute. reflexivity.
  - reflexivity.
  - vm_compute. reflexivity.
  - vm_compute. discriminate.
  - vm_compute. reflexivity.
Defined.

Lemma resolve_iff_alive_example :
  let st := state_after 42 [OpNewSelfDestructing 5; OpSetName (Some 5%positive) "x"] in
  let w := mkWeak (Some 1%positive) in
  exists p,
    WeakReference_get w st = Ok p st /\
    WeakReference_bool w st = Ok (bool_decide (p <> nullptr)) st /\
    (p <> nullptr ->
     exists o, deref p st = Ok o st /\ masterReference o = holder w).
Proof.
  intros st w. apply (resolve_iff_alive st w).
  - exists 42, [OpNewSelfDestructing 5; OpSetName (Some 5%positive) "x"].
    vm_compute. reflexivity.
  - vm_compute. eexists. reflexivity.
Defined.

Lemma copy_agrees_example :
  let st := state_after 42 [OpNewSelfDestructing 5; OpNewWeakReferenceable 6] in
  let w := mkWeak (Some 1%positive) in
  let st' := state_after 42 [OpNewSelfDestructing 5; OpNewWeakReferenceable 6; OpTimer 0] in
  let st'' := state_after 42 [OpNewSelfDestructing 5; OpNewWeakReferenceable 6; OpTimer 0;
                              OpBind (Some 6%positive)] in
  holder (WeakReference_copy w) = holder w /\
  (forall s, WeakReference_bool (WeakReference_copy w) s = WeakReference_bool w s) /\
  (forall s, WeakReference_get (WeakReference_copy w) s = WeakReference_get w s) /\
  exists q,
    WeakReference_get w st' = Ok q st' /\
    WeakReference_get (WeakReference_copy w) st' = Ok q st' /\
    WeakReference_get (WeakReference_copy w) st'' = Ok q st''.
Proof.
  intros st w st' st''.
  apply (copy_agrees w st [OpTimer 0] st' (Some 6%positive) (mkWeak (Some 2%positive)) st'').
  - exists 42, [OpNewSelfDestructing 5; OpNewWeakReferenceable 6]. vm_compute. reflexivity.
  - vm_compute. eexists. reflexivity.
  - vm_compute. reflexivity.
  - vm_compute. reflexivity.
Defined.

(** The object at address 5 is deleted by its owner before its timer fires:
    the callback finds the reference dead and deletes nothing. *)
Lemma callback_deletes_only_live_example :
  let st := state_after 42 [OpNewSelfDestructing 5; OpDelete (Some 5%positive)] in
  let w := mkWeak (Some 1%positive) in
  (WeakReference_bool w st = Ok false st /\
   selfDestruct w st = Ok tt (emit (Dbg "Deleted object") st))
  \/
  (exists a c o,
      WeakReference_bool w st = Ok true st /\
      WeakReference_get w st = Ok (Some a) st /\
      holder w = Some c /\
      heap st !! a = Some o /\ masterReference o = Some c /\
      selfDestruct w st =
        Ok tt (emit (Dbg "Deleted object")
                 (emit (Freed a)
                    (set_heap (delete a (heap st))
                       (emit (Cleared c)
                          (set_cells (<[c := nullptr]> (cells st)) st)))))).
Proof.
  intros st w. apply (callback_deletes_only_live st w).
  - exists 42, [OpNewSelfDestructing 5; OpDelete (Some 5%positive)].
    vm_compute. reflexivity.
  - vm_compute. eexists. reflexivity.
Defined.

(** ** The diagnostic of the timer's callback *)

Lemma length_take_timer {A} (l : list A) i x :
  l !! i = Some x -> (length (delete i l) + 1 = length l)%nat.
Proof.
  intros H. rewrite length_delete by eauto.
  apply lookup_lt_Some in H. lia.
Qed.

Lemma step_notices o st st' :
  step o st = Ok tt st' ->
  notices st' = (notices st + (if is_timer o then 1 else 0))%nat /\
  (length (timers st') + (if is_timer o then 1 else 0) =
   length (timers st) + (if is_construction o then 1 else 0))%nat.
Proof.
  intros H. destruct o; program; run;
    unfold notices; simpl;
    rewrite ?List.filter_app, ?length_app; simpl; try lia.
  all: split; [lia|]; rewrite Nat.add_0_r; by eapply length_take_timer.
Qed.

Lemma exec_notices ops st st' :
  exec ops st = Ok tt st' ->
  notices st' = (notices st + count is_timer ops)%nat /\
  (length (timers st') + count is_timer ops =
   length (timers st) + count is_construction ops)%nat.
Proof.
  revert st. induction ops as [|o ops IH]; intros st H; simpl in H.
  - injection H as <-. unfold count. simpl. lia.
  - apply bind_Ok in H as ([] & st1 & Ho & H).
    apply step_notices in Ho as [Hn Ht]. apply IH in H as [Hn' Ht'].
    unfold count in *. simpl.
    destruct (is_timer o), (is_construction o); simpl; lia.
Qed.

(** C10. In every run from the start of a process, ["Deleted object"] has
    been written exactly once for each timer callback that has run; each
    constructed [SelfDestructingObject] accounts for exactly one callback,
    run or still pending, so that once no timer is pending the line has been
    written exactly once per constructed instance.  The line is written
    whether or not the callback deleted anything: when the reference is not
    alive, the callback writes the line and changes nothing else. *)
Theorem notice_once_per_instance :
  forall s ops st,
    exec ops (initial s) = Ok tt st ->
    notices st = count is_timer ops /\
    (notices st + length (timers st))%nat = count is_construction ops /\
    (timers st = [] -> notices st = count is_construction ops) /\
    (forall w, WeakReference_bool w st = Ok false st ->
               selfDestruct w st = Ok tt (emit (Dbg "Deleted object") st) /\
               notices (emit (Dbg "Deleted object") st) = S (notices st)).
Proof.
  intros s ops st H. apply exec_notices in H as [Hn Ht].
  unfold notices in *. simpl in *.
  split; [lia|]. split; [lia|]. split.
  - intros E. rewrite E in Ht. simpl in Ht. lia.
  - intros w Hb. split.
    + unfold selfDestruct, bind. rewrite Hb. reflexivity.
    + rewrite List.filter_app, length_app. simpl. lia.
Qed.

(** The object at address 5 is deleted by its owner, then its timer fires:
    the line is written although the callback deleted nothing. *)
Lemma notice_once_per_instance_example :
  let ops := [OpNewSelfDestructing 5; OpDelete (Some 5%positive); OpTimer 0] in
  let st := state_after 42 ops in
  trace st = [Cleared 1; Freed 5; Dbg "Deleted object"] /\
  notices st = count is_timer ops /\
  (notices st + length (timers st))%nat = count is_construction ops /\
  (timers st = [] -> notices st = count is_construction ops) /\
  (forall w, WeakReference_bool w st = Ok false st ->
             selfDestruct w st = Ok tt (emit (Dbg "Deleted object") st) /\
             notices (emit (Dbg "Deleted object") st) = S (notices st)).
Proof.
  intros ops st. split; [vm_compute; reflexivity|].
  apply (notice_once_per_instance 42 ops st).
  vm_compute. reflexivity.
Defined.

(** ** The application *)

Lemma MainComponent_new_Ok s a :
  MainComponent_new a (initial s) =
  Ok (mkMainComponent (Some a) (mkWeak (Some 1%positive))) (constructed s a).
Proof.
  unfold MainComponent_new, new_SelfDestructingObject. library. simpl.
  rewrite lookup_empty. simpl. rewrite !lookup_insert_eq. simpl.
  rewrite !lookup_insert_eq. simpl. rewrite !lookup_insert_eq. simpl.
  repeat match goal with
         | |- context [fresh ?X] =>
             replace (fresh X) with 1%positive by (vm_compute; reflexivity)
         end.
  unfold constructed, set_heap, set_cells, set_timers, set_seed. simpl.
  rewrite !insert_insert_eq, !insert_empty.
  reflexivity.
Qed.

Lemma constructed_live s a : live_phase a (constructed s a).
Proof. split; simpl; eauto. Qed.

Lemma step_live a o st st' :
  live_phase a st -> observer o = true -> step o st = Ok tt st' ->
  (is_timer o = false /\ live_phase a st') \/
  (is_timer o = true /\ dead_phase a st').
Proof.
  intros [Hh Hc [d Ht] Hd] Ho H. destruct st as [h cs ts tr sd].
  unfold destructions in *. simpl in *. subst h cs ts.
  destruct o; try discriminate Ho; program; run; singleton_lookups;
    try congruence;
    first [ left; split; [reflexivity|]; by phase Hd
          | right; split; [reflexivity|]; by phase Hd ].
Qed.

Lemma step_dead a o st st' :
  dead_phase a st -> observer o = true -> step o st = Ok tt st' ->
  is_timer o = false /\ dead_phase a st'.
Proof.
  intros [Hh Hc Ht Hd] Ho H. destruct st as [h cs ts tr sd].
  unfold destructions in *. simpl in *. subst h cs ts.
  destruct o; try discriminate Ho; program; run; singleton_lookups;
    try congruence;
    (split; [reflexivity|]; by phase Hd).
Qed.

Lemma exec_dead a ops st st' :
  dead_phase a st -> forallb observer ops = true -> exec ops st = Ok tt st' ->
  count is_timer ops = 0%nat /\ dead_phase a st'.
Proof.
  revert st. induction ops as [|o ops IH]; intros st Hp Ho H; simpl in *.
  - injection H as <-. done.
  - apply andb_prop in Ho as [Ho Hops].
    apply bind_Ok in H as ([] & st1 & H1 & H).
    destruct (step_dead _ _ _ _ Hp Ho H1) as [Hnt Hp1].
    destruct (IH _ Hp1 Hops H) as [Hn Hp'].
    unfold count in *. simpl. by rewrite Hnt.
Qed.

Lemma exec_live a ops st st' :
  live_phase a st -> forallb observer ops = true -> exec ops st = Ok tt st' ->
  (count is_timer ops = 0%nat /\ live_phase a st') \/
  (count is_timer ops = 1%nat /\ dead_phase a st').
Proof.
  revert st. induction ops as [|o ops IH]; intros st Hp Ho H; simpl in *.
  - injection H as <-. by left.
  - apply andb_prop in Ho as [Ho Hops].
    apply bind_Ok in H as ([] & st1 & H1 & H).
    unfold count in *. simpl.
    destruct (step_live _ _ _ _ Hp Ho H1) as [[Hnt Hp1]|[Hnt Hp1]]; rewrite Hnt.
    + by apply (IH st1).
    + right. destruct (exec_dead _ _ _ _ Hp1 Hops H) as [Hn Hp'].
      unfold count in Hn. simpl. by rewrite Hn.
Qed.

Lemma events_observe mc evs :
  forallb observer (map (op_of_event mc) evs) = true.
Proof. induction evs as [|[] evs IH]; simpl; auto. Qed.

(** C3. [MainComponent] is constructed in a fresh process; from then on any
    number of weak references are bound and the buttons are clicked, with
    the timer firing at some point or not (the events of the application are
    such operations, [events_observe]).  In every such run the timer's
    callback has run at most once.  Before it has run nothing was destroyed
    and the instance is live: no click and no binding destroys it.  When it
    has run, the destructions of the whole run are exactly one clearing of
    the instance's cell followed by one release of its storage, however many
    references were bound; no timer is left to destroy it again. *)
Theorem destroyed_once_by_own_timer :
  forall s a ops mc st0 st,
    MainComponent_new a (initial s) = Ok mc st0 ->
    forallb observer ops = true ->
    exec ops st0 = Ok tt st ->
    mc = mkMainComponent (Some a) (mkWeak (Some 1%positive)) /\
    ((count is_timer ops = 0%nat /\ destructions st = [] /\
      live_instance st a 1)
     \/
     (count is_timer ops = 1%nat /\ destructions st = [Cleared 1; Freed a] /\
      heap st !! a = None /\ cells st !! 1%positive = Some nullptr /\
      timers st = [])).
Proof.
  intros s a ops mc st0 st Hnew Hobs Hx.
  rewrite MainComponent_new_Ok in Hnew. injection Hnew as <- <-.
  split; [done|].
  destruct (exec_live a _ _ _ (constructed_live s a) Hobs Hx)
    as [[Hn [Hh Hc Ht Hd]]|[Hn [Hh Hc Ht Hd]]]; [left|right].
  - repeat (split; [done|]). unfold live_instance.
    rewrite Hh, lookup_singleton_eq. done.
  - repeat (split; [done|]). rewrite Hh, Hc, lookup_empty, lookup_singleton_eq. done.
Qed.

Lemma destroyed_once_by_own_timer_example :
  let ops := [OpBind (Some 5%positive); OpCheckClick (mkWeak (Some 1%positive));
              OpCrashClick (Some 5%positive); OpTimer 0;
              OpCheckClick (mkWeak (Some 1%positive)); OpBind nullptr] in
  let mc := mkMainComponent (Some 5%positive) (mkWeak (Some 1%positive)) in
  let st := state_after 42 (OpNewSelfDestructing 5
                            :: OpSetName (Some 5%positive) "Self Destructing Object"
                            :: ops) in
  mc = mkMainComponent (Some 5%positive) (mkWeak (Some 1%positive)) /\
  ((count is_timer ops = 0%nat /\ destructions st = [] /\
    live_instance st 5 1)
   \/
   (count is_timer ops = 1%nat /\ destructions st = [Cleared 1; Freed 5] /\
    heap st !! 5%positive = None /\ cells st !! 1%positive = Some nullptr /\
    timers st = [])).
Proof.
  intros ops mc st.
  apply (destroyed_once_by_own_timer 42 5 ops mc (constructed 42 5) st).
  - apply MainComponent_new_Ok.
  - reflexivity.
  - vm_compute. reflexivity.
Defined.

Lemma application_Ok s a evs mc st :
  application a evs (initial s) = Ok mc st <->
  mc = mkMainComponent (Some a) (mkWeak (Some 1%positive)) /\
  exec (map (op_of_event mc) evs) (constructed s a) = Ok tt st.
Proof.
  unfold application. rewrite bind_Ok. split.
  - intros (mc' & st0 & Hnew & H). rewrite MainComponent_new_Ok in Hnew.
    injection Hnew as <- <-. apply bind_Ok in H as ([] & st1 & Hx & H).
    injection H as <- <-. done.
  - intros [-> Hx]. eexists _, _. split; [apply MainComponent_new_Ok|].
    apply bind_Ok. eexists tt, st. done.
Qed.

Lemma timer_fired evs mc :
  In TimerFires evs -> count is_timer (map (op_of_event mc) evs) <> 0%nat.
Proof.
  unfold count. induction evs as [|e evs IH]; [done|].
  intros [->|Hin]; simpl; [done|]. destruct e; simpl; auto.
Qed.

(** C8. The pointer captured by [crashButton.onClick] is the address the
    object was constructed at, and it is not null, in every state, whatever
    has happened to the object.  So a click never takes the branch that
    writes ["Object has been deleted"]: it either reads the name through the
    pointer or has undefined behaviour; and in every run of the application
    in which the timer has fired, the object is gone and a click
    dereferences the dangling pointer, where the other button's weak
    reference reports the deletion. *)
Theorem crash_check_never_detects :
  forall s a evs mc st,
    application a evs (initial s) = Ok mc st ->
    crash_obj mc = Some a /\
    (forall st',
        crashButton_onClick (crash_obj mc) st' = UB \/
        exists n, crashButton_onClick (crash_obj mc) st' =
                  Ok tt (emit (Dbg ("Name: " ++ n)) st')) /\
    (forall st' st'',
        crashButton_onClick (crash_obj mc) st' <>
        Ok tt (emit (Dbg "Object has been deleted") st'')) /\
    (In TimerFires evs ->
     crashButton_onClick (crash_obj mc) st = UB /\
     checkButton_onClick (check_weak mc) st =
     Ok tt (emit (Dbg "Object has been deleted") st)).
Proof.
  intros s a evs mc st Happ. apply application_Ok in Happ as [-> Hx]. simpl.
  split; [done|].
  assert (Hclick : forall st',
             crashButton_onClick (Some a) st' = UB \/
             exists n, crashButton_onClick (Some a) st' =
                       Ok tt (emit (Dbg ("Name: " ++ n)) st')).
  { intros st'. unfold crashButton_onClick. rewrite bool_decide_eq_true_2 by done.
    library. destruct (heap st' !! a) as [o|]; eauto. }
  split; [exact Hclick|]. split.
  - intros st' st'' H. destruct (Hclick st') as [E|[n E]]; rewrite E in H; [done|].
    apply (f_equal (fun r => match r with Ok _ x => rev (trace x) | _ => [] end)) in H.
    simpl in H. rewrite !rev_app_distr in H. simpl in H. discriminate H.
  - intros Hin.
    destruct (exec_live a _ _ _ (constructed_live s a) (events_observe _ evs) Hx)
      as [[Hn _]|[_ [Hh Hc Ht Hd]]].
    + by apply (timer_fired _ _ Hin) in Hn.
    + split.
      * unfold crashButton_onClick. rewrite bool_decide_eq_true_2 by done.
        library. by rewrite Hh, lookup_empty.
      * unfold checkButton_onClick. library. simpl.
        by rewrite Hc, lookup_singleton_eq.
Qed.

(** The object is constructed at address 5; both buttons are clicked, the
    timer fires, and the check button is clicked again. *)
Lemma crash_check_never_detects_example :
  let evs := [ClickCheck; ClickCrash; TimerFires; ClickCheck] in
  let mc := mkMainComponent (Some 5%positive) (mkWeak (Some 1%positive)) in
  let st := state_after 42 (OpNewSelfDestructing 5
                            :: OpSetName (Some 5%positive) "Self Destructing Object"
                            :: OpBind (Some 5%positive)
                            :: map (op_of_event mc) evs) in
  trace st = [Dbg "Name: Self Destructing Object";
              Dbg "Name: Self Destructing Object";
              Cleared 1; Freed 5; Dbg "Deleted object";
              Dbg "Object has been deleted"] /\
  crash_obj mc = Some 5%positive /\
  (forall st',
      crashButton_onClick (crash_obj mc) st' = UB \/
      exists n, crashButton_onClick (crash_obj mc) st' =
                Ok tt (emit (Dbg ("Name: " ++ n)) st')) /\
  (forall st' st'',
      crashButton_onClick (crash_obj mc) st' <>
      Ok tt (emit (Dbg "Object has been deleted") st'')) /\
  (In TimerFires evs ->
   crashButton_onClick (crash_obj mc) st = UB /\
   checkButton_onClick (check_weak mc) st =
   Ok tt (emit (Dbg "Object has been deleted") st)).
Proof.
  intros evs mc st. split; [vm_compute; reflexivity|].
  apply (crash_check_never_detects 42 5 evs mc st).
  vm_compute. reflexivity.
Defined.

(** ** An instance before its destruction *)

Lemma step_keeps a c n o st st' :
  heap st !! a = Some (mkObject n (Some c)) ->
  keeps a o = true -> step o st = Ok tt st' ->
  heap st' !! a = Some (mkObject (label_step a n o) (Some c)).
Proof.
  intros Ha Hk H.
  destruct o; try discriminate Hk; program; run; simplify_map_eq; try done;
    map_lookups; repeat case_bool_decide; simplify_eq/=; try done.
Qed.

Lemma exec_keeps a c ops n st st' :
  heap st !! a = Some (mkObject n (Some c)) ->
  forallb (keeps a) ops = true -> exec ops st = Ok tt st' ->
  heap st' !! a = Some (mkObject (label_after a ops n) (Some c)).
Proof.
  revert n st. induction ops as [|o ops IH]; intros n st Ha Hk H; simpl in *.
  - by injection H as <-.
  - apply andb_prop in Hk as [Hk Hks].
    apply bind_Ok in H as ([] & st1 & H1 & H).
    eapply IH; [|done|done]. by eapply step_keeps.
Qed.

Lemma new_SelfDestructingObject_Ok a st p st' :
  new_SelfDestructingObject a st = Ok p st' ->
  p = Some a /\
  exists c, heap st' !! a = Some (mkObject "" (Some c)).
Proof.
  intros H. unfold new_SelfDestructingObject in H. run; simplify_map_eq; eauto.
Qed.

(** C5. An instance is constructed at [a] in a reachable state.  Then any
    run follows in which no timer fires and nobody deletes the instance
    (names are set, references bound, buttons clicked, other objects made
    and deleted).  A weak reference bound to the instance at that point
    converts to [true] and resolves to [a], the binding changes nothing, and
    the name read through the pointer is the component's current name: the
    one set last, or the empty name a component starts with. *)
Theorem alive_after_construction :
  forall st a p st1 ops st2 w st3,
    reachable st ->
    new_SelfDestructingObject a st = Ok p st1 ->
    forallb (keeps a) ops = true ->
    exec ops st1 = Ok tt st2 ->
    WeakReference_of p st2 = Ok w st3 ->
    p = Some a /\ st3 = st2 /\
    WeakReference_bool w st3 = Ok true st3 /\
    WeakReference_get w st3 = Ok p st3 /\
    Component_getName p st3 = Ok (label_after a ops "") st3.
Proof.
  intros st a p st1 ops st2 w st3 Hr Hnew Hk Hx Hb.
  pose proof (reachable_wf _ Hr) as Hwf.
  destruct (sound_new_SelfDestructingObject a _ _ _ Hwf Hnew) as [Hwf1 _].
  destruct (sound_exec ops _ _ _ Hwf1 Hx) as [Hwf2 _].
  apply new_SelfDestructingObject_Ok in Hnew as [-> [c Ha]].
  pose proof (exec_keeps _ _ _ _ _ _ Ha Hk Hx) as Ha2.
  assert (Hl : live_instance st2 a c).
  { unfold live_instance. by rewrite Ha2. }
  rewrite (WeakReference_of_live _ _ _ Hl) in Hb. injection Hb as <- <-.
  apply (wf_cells _ Hwf2) in Hl.
  destruct (WeakReference_live st2 (mkWeak (Some c)) c a eq_refl Hl) as [Hbool Hget].
  repeat (split; [done|]).
  unfold Component_getName, deref, bind, ret. by rewrite Ha2.
Qed.

Lemma alive_after_construction_example :
  let ops := [OpSetName (Some 5%positive) "Self Destructing Object";
              OpCheckClick (mkWeak (Some 1%positive)); OpExample 6] in
  let st := initial 42 in
  let st1 := state_after 42 [OpNewSelfDestructing 5] in
  let st2 := state_after 42 (OpNewSelfDestructing 5 :: ops) in
  let p := Some 5%positive in
  let w := mkWeak (Some 1%positive) in
  p = Some 5%positive /\ st2 = st2 /\
  WeakReference_bool w st2 = Ok true st2 /\
  WeakReference_get w st2 = Ok p st2 /\
  Component_getName p st2 = Ok "Self Destructing Object" st2.
Proof.
  intros ops st st1 st2 p w.
  apply (alive_after_construction st 5 p st1 ops st2 w st2).
  - exists 42, []. reflexivity.
  - vm_compute. reflexivity.
  - reflexivity.
  - vm_compute. reflexivity.
  - vm_compute. reflexivity.
Defined.

(** ** The delay of the self-destruction *)

Lemma next_seed_range s : 0 <= next_seed s < 2 ^ 48.
Proof.
  unfold next_seed.
  change 0xffffffffffff with (Z.ones 48). rewrite Z.land_ones by lia.
  set (x := to_uint64 (to_uint64 (to_uint64 s * 25214903917) + 11)).
  assert (H : 0 <= x mod 2 ^ 48 < 2 ^ 48) by (apply Z.mod_pos_bound; lia).
  unfold to_int64. rewrite Z.mod_small by lia. lia.
Qed.

Lemma next_seed_mod s : next_seed s = (s * 0x5deece66d + 11) mod 2 ^ 48.
Proof.
  unfold next_seed, to_uint64.
  change 0xffffffffffff with (Z.ones 48). rewrite Z.land_ones by lia.
  rewrite Z.mul_mod_idemp_l, Z.add_mod_idemp_l by lia.
  rewrite Z.mod_mod_divide by (by exists (2 ^ 16)).
  assert (0 <= (s * 25214903917 + 11) mod 2 ^ 48 < 2 ^ 48) by (apply Z.mod_pos_bound; lia).
  unfold to_int64. rewrite Z.mod_small by lia. lia.
Qed.

Lemma next_prev_seed x : 0 <= x < 2 ^ 48 -> next_seed (prev_seed x) = x.
Proof.
  intros Hx. rewrite next_seed_mod. unfold prev_seed.
  rewrite <- Z.add_mod_idemp_l by lia.
  rewrite Z.mul_mod_idemp_l, Z.add_mod_idemp_l by lia.
  replace ((x - 11) * 0xdfe05bcb1365 * 0x5deece66d + 11)
    with (x + ((x - 11) * 22050866921) * 2 ^ 48) by lia.
  rewrite Z.mod_add by lia. apply Z.mod_small. lia.
Qed.

Lemma prev_next_seed s : 0 <= s < 2 ^ 48 -> prev_seed (next_seed s) = s.
Proof.
  intros Hs. rewrite next_seed_mod. unfold prev_seed.
  rewrite <- Z.mul_mod_idemp_l by lia.
  rewrite Zminus_mod_idemp_l, Z.mul_mod_idemp_l by lia.
  replace ((s * 0x5deece66d + 11 - 11) * 0xdfe05bcb1365)
    with (s + (s * 22050866921) * 2 ^ 48) by lia.
  rewrite Z.mod_add by lia. apply Z.mod_small. lia.
Qed.

Lemma scale_to_eq r :
  0 <= r < 2 ^ 32 -> scale_to 3000 (to_int32 r) = r * 3000 / 2 ^ 32.
Proof.
  intros Hr. unfold scale_to.
  assert (E : to_uint32 (to_int32 r) = r).
  { unfold to_uint32, to_int32.
    rewrite Zminus_mod_idemp_l.
    replace (r + 2 ^ 31 - 2 ^ 31) with r by lia. apply Z.mod_small. lia. }
  rewrite E. unfold to_uint64. rewrite (Z.mod_small 3000) by lia.
  rewrite (Z.mod_small (r * 3000)) by lia.
  rewrite Z.shiftr_div_pow2 by lia.
  assert (0 <= r * 3000 / 2 ^ 32 < 3000).
  { split; [apply Z.div_pos; lia|]. apply Z.div_lt_upper_bound; lia. }
  unfold to_int32. rewrite Z.mod_small by lia. lia.
Qed.

Lemma raw_range s : 0 <= raw s < 2 ^ 32.
Proof.
  unfold raw. pose proof (next_seed_range s) as H.
  rewrite Z.shiftr_div_pow2 by lia. split.
  - apply Z.div_pos; lia.
  - apply Z.div_lt_upper_bound; lia.
Qed.

Lemma drawn_delay_raw s : drawn_delay s = raw s * 3000 / 2 ^ 32.
Proof. unfold drawn_delay. apply scale_to_eq, raw_range. Qed.

Lemma scaled_interval r d :
  0 <= r -> r * 3000 / 2 ^ 32 = d <-> lowest d <= r < lowest (d + 1).
Proof.
  intros Hr. unfold lowest.
  pose proof (Z.div_mod (r * 3000) (2 ^ 32) ltac:(lia)) as H1.
  pose proof (Z.mod_pos_bound (r * 3000) (2 ^ 32) ltac:(lia)) as H2.
  pose proof (Z.div_mod (d * 2 ^ 32 + 2999) 3000 ltac:(lia)) as H3.
  pose proof (Z.mod_pos_bound (d * 2 ^ 32 + 2999) 3000 ltac:(lia)) as H4.
  pose proof (Z.div_mod ((d + 1) * 2 ^ 32 + 2999) 3000 ltac:(lia)) as H5.
  pose proof (Z.mod_pos_bound ((d + 1) * 2 ^ 32 + 2999) 3000 ltac:(lia)) as H6.
  split; intros H; [|symmetry; apply Z.div_unique with (r := r * 3000 - 2 ^ 32 * d)]; lia.
Qed.

Lemma lowest_width d :
  lowest (d + 1) - lowest d = 1431655 \/ lowest (d + 1) - lowest d = 1431656.
Proof.
  unfold lowest.
  pose proof (Z.div_mod (d * 2 ^ 32 + 2999) 3000 ltac:(lia)) as H3.
  pose proof (Z.mod_pos_bound (d * 2 ^ 32 + 2999) 3000 ltac:(lia)) as H4.
  pose proof (Z.div_mod ((d + 1) * 2 ^ 32 + 2999) 3000 ltac:(lia)) as H5.
  pose proof (Z.mod_pos_bound ((d + 1) * 2 ^ 32 + 2999) 3000 ltac:(lia)) as H6.
  lia.
Qed.

Lemma lowest_range d : 0 <= d < 3000 -> 0 <= lowest d /\ lowest (d + 1) <= 2 ^ 32.
Proof.
  intros Hd. unfold lowest.
  pose proof (Z.div_mod (d * 2 ^ 32 + 2999) 3000 ltac:(lia)) as H3.
  pose proof (Z.mod_pos_bound (d * 2 ^ 32 + 2999) 3000 ltac:(lia)) as H4.
  pose proof (Z.div_mod ((d + 1) * 2 ^ 32 + 2999) 3000 ltac:(lia)) as H5.
  pose proof (Z.mod_pos_bound ((d + 1) * 2 ^ 32 + 2999) 3000 ltac:(lia)) as H6.
  lia.
Qed.

Lemma raw_prev_seed r : 0 <= r < 2 ^ 32 -> raw (prev_seed (r * 2 ^ 16)) = r.
Proof.
  intros Hr. unfold raw. rewrite next_prev_seed by lia.
  rewrite Z.shiftr_div_pow2 by lia. apply Z.div_mul. lia.
Qed.

Lemma drawn_delay_interval s d :
  drawn_delay s = d <-> lowest d <= raw s < lowest (d + 1).
Proof.
  rewrite drawn_delay_raw. apply scaled_interval. apply raw_range.
Qed.

Lemma drawn_delay_range s : 0 <= drawn_delay s < 3000.
Proof.
  rewrite drawn_delay_raw. pose proof (raw_range s) as H. split.
  - apply Z.div_pos; lia.
  - apply Z.div_lt_upper_bound; lia.
Qed.

Lemma seed_for_drawn d :
  0 <= d < 3000 ->
  drawn_delay (seed_for d) = d /\ - 2 ^ 63 <= seed_for d < 2 ^ 63.
Proof.
  intros Hd. destruct (lowest_range d Hd) as [H0 H1].
  pose proof (lowest_width d) as Hw. split.
  - apply drawn_delay_interval. unfold seed_for.
    rewrite raw_prev_seed by lia. lia.
  - unfold seed_for, prev_seed.
    pose proof (Z.mod_pos_bound ((lowest d * 2 ^ 16 - 11) * 0xdfe05bcb1365) (2 ^ 48)
                  ltac:(lia)). lia.
Qed.

(** What the constructor does, from any state in which [a] is free. *)
Lemma new_SelfDestructingObject_spec a st p st' :
  new_SelfDestructingObject a st = Ok p st' ->
  timers st' =
  (timers st ++ [(drawn_delay (seed st),
                  SelfDestruct (mkWeak (Some (fresh (dom (cells st))))))])%list.
Proof.
  intros H. unfold new_SelfDestructingObject in H. run; simplify_map_eq.
  reflexivity.
Qed.

Lemma new_SelfDestructingObject_initial s a :
  exists st', new_SelfDestructingObject a (initial s) = Ok (Some a) st' /\
              timers st' = [(drawn_delay s, SelfDestruct (mkWeak (Some 1%positive)))].
Proof.
  unfold new_SelfDestructingObject. library. simpl.
  rewrite lookup_empty. simpl. rewrite !lookup_insert_eq. simpl.
  eexists. split; [reflexivity|]. simpl. unfold drawn_delay.
  repeat match goal with
         | |- context [fresh ?X] =>
             replace (fresh X) with 1%positive by (vm_compute; reflexivity)
         end.
  reflexivity.
Qed.

Lemma new_SelfDestructingObject_weak a st p st' :
  new_SelfDestructingObject a st = Ok p st' ->
  p = Some a /\
  WeakReference_get (mkWeak (Some (fresh (dom (cells st))))) st' = Ok (Some a) st'.
Proof.
  intros H. unfold new_SelfDestructingObject in H. run; simplify_map_eq.
  split; [reflexivity|]. unfold WeakReference_get, SharedPointer_get. simpl.
  reflexivity.
Qed.

(** C4, as amended.  The constructor starts exactly one timer, a one-shot
    one; its function is the lambda holding a weak reference that resolves
    to the new instance; its delay is [nextInt (3000)], which is at least 0
    and less than 3000.  Every delay from 0 to 2999 is drawn for some seed
    of the generator; 3000 itself never is.  The draw is uniform up to
    rounding: the generator produces every 32-bit value for some seed, and
    the delay is [d] exactly for the values from [lowest d] up to, not
    including, [lowest (d + 1)], which are 1431655 or 1431656 of them for
    every [d]. *)
Theorem delay_below_maximum :
  forall st a p st',
    new_SelfDestructingObject a st = Ok p st' ->
    (exists d w,
        timers st' = (timers st ++ [(d, SelfDestruct w)])%list /\
        WeakReference_get w st' = Ok p st' /\
        d = drawn_delay (seed st) /\ 0 <= d < 3000) /\
    (forall d, 0 <= d < 3000 ->
       exists s st'',
         - 2 ^ 63 <= s < 2 ^ 63 /\
         new_SelfDestructingObject a (initial s) = Ok (Some a) st'' /\
         timers st'' = [(d, SelfDestruct (mkWeak (Some 1%positive)))]) /\
    (forall s d, drawn_delay s = d <-> lowest d <= raw s < lowest (d + 1)) /\
    (forall r, 0 <= r < 2 ^ 32 -> exists s, 0 <= s < 2 ^ 48 /\ raw s = r) /\
    (forall d, lowest (d + 1) - lowest d = 1431655 \/
               lowest (d + 1) - lowest d = 1431656).
Proof.
  intros st a p st' H. split; [|split; [|split; [|split]]].
  - exists (drawn_delay (seed st)), (mkWeak (Some (fresh (dom (cells st))))).
    split; [by eapply new_SelfDestructingObject_spec|].
    destruct (new_SelfDestructingObject_weak _ _ _ _ H) as [-> Hg].
    split; [done|]. split; [done|]. apply drawn_delay_range.
  - intros d Hd. destruct (seed_for_drawn d Hd) as [Hs Hr].
    destruct (new_SelfDestructingObject_initial (seed_for d) a) as (st'' & Hn & Ht).
    exists (seed_for d), st''. rewrite Hs in Ht. done.
  - apply drawn_delay_interval.
  - intros r Hr. exists (prev_seed (r * 2 ^ 16)). split.
    + unfold prev_seed. apply Z.mod_pos_bound. lia.
    + by apply raw_prev_seed.
  - apply lowest_width.
Qed.

Lemma delay_below_maximum_example :
  let st' := state_after 42 [OpNewSelfDestructing 5] in
  (exists d w,
      timers st' = (timers (initial 42) ++ [(d, SelfDestruct w)])%list /\
      WeakReference_get w st' = Ok (Some 5%positive) st' /\
      d = drawn_delay (seed (initial 42)) /\ 0 <= d < 3000) /\
  (forall d, 0 <= d < 3000 ->
     exists s st'',
       - 2 ^ 63 <= s < 2 ^ 63 /\
       new_SelfDestructingObject 5 (initial s) = Ok (Some 5%positive) st'' /\
       timers st'' = [(d, SelfDestruct (mkWeak (Some 1%positive)))]) /\
  (forall s d, drawn_delay s = d <-> lowest d <= raw s < lowest (d + 1)) /\
  (forall r, 0 <= r < 2 ^ 32 -> exists s, 0 <= s < 2 ^ 48 /\ raw s = r) /\
  (forall d, lowest (d + 1) - lowest d = 1431655 \/
             lowest (d + 1) - lowest d = 1431656).
Proof.
  intros st'.
  apply (delay_below_maximum (initial 42) 5 (Some 5%positive) st').
  vm_compute. reflexivity.
Defined.

(** C4, as the claim has it, fails at the upper end of the interval: no seed
    makes the constructor start a timer with a delay of 3000. *)
Lemma delay_3000_never_scheduled :
  ~ (exists s a p st' f,
        new_SelfDestructingObject a (initial s) = Ok p st' /\
        In (3000, f) (timers st')).
Proof.
  intros (s & a & p & st' & f & H & Hin).
  apply new_SelfDestructingObject_spec in H. rewrite H in Hin. simpl in Hin.
  destruct Hin as [E|[]]. injection E as E _.
  pose proof (drawn_delay_range s). lia.
Qed.

(** ** [WeakReferenceExample] *)

(** From any reachable state in which the address is free, the example runs
    without a fault: it writes ["Hello"] while the object is alive, destroys
    the object where the block ends, and then writes nothing more, the weak
    reference having become null. *)
Lemma WeakReferenceExample_trace st a :
  heap st !! a = None ->
  exists st',
    WeakReferenceExample a st = Ok tt st' /\
    trace st' = (trace st ++ [Dbg "Hello"; Cleared (fresh (dom (cells st))); Freed a])%list /\
    heap st' = heap st /\
    WeakReference_bool (mkWeak (Some (fresh (dom (cells st))))) st' = Ok false st'.
Proof.
  intros Ha. unfold WeakReferenceExample, printSomething. library. simpl.
  rewrite Ha. repeat (progress (rewrite ?lookup_insert_eq; simpl)).
  eexists. split; [reflexivity|]. simpl.
  rewrite <- !app_assoc. simpl. split; [reflexivity|].
  rewrite !lookup_insert_eq. split; [|reflexivity].
  rewrite insert_insert_eq, delete_insert_eq. by apply delete_id.
Qed.

(** ** Properties beyond the claims *)

(** *** [WeakReferenceExample] in any state *)

Lemma WeakReferenceExample_trace_example :
  let st := state_after 42 [OpNewSelfDestructing 5] in
  exists st',
    WeakReferenceExample 6 st = Ok tt st' /\
    trace st' = (trace st ++ [Dbg "Hello"; Cleared (fresh (dom (cells st))); Freed 6])%list /\
    heap st' = heap st /\
    WeakReference_bool (mkWeak (Some (fresh (dom (cells st))))) st' = Ok false st'.
Proof.
  intros st. apply (WeakReferenceExample_trace st 6).
  vm_compute. reflexivity.
Defined.

(** *** The check button in any reachable state *)

(** A click on the check button never faults, whatever has happened to the
    object, also when its address has been given to another object since:
    either the reference resolves to a live object, the one it was bound
    to, and the click writes that object's name; or it resolves to
    [nullptr] and the click writes ["Object has been deleted"].  Nothing
    else changes. *)
Theorem checkButton_never_faults :
  forall st w,
    reachable st -> handle_wf st w ->
    (exists a o,
        WeakReference_get w st = Ok (Some a) st /\
        heap st !! a = Some o /\ masterReference o = holder w /\
        checkButton_onClick w st =
        Ok tt (emit (Dbg ("Name: " ++ componentName o)) st))
    \/
    (WeakReference_get w st = Ok nullptr st /\
     checkButton_onClick w st = Ok tt (emit (Dbg "Object has been deleted") st)).
Proof.
  intros st w Hr Hw. pose proof (reachable_wf _ Hr) as Hwf.
  unfold handle_wf in Hw. destruct (holder w) as [c|] eqn:Hh.
  - destruct Hw as [[a|] Hc].
    + left. pose proof (proj1 (wf_cells _ Hwf c a) Hc) as Hl.
      unfold live_instance in Hl.
      destruct (heap st !! a) as [o|] eqn:Ho; [|done]. simpl in Hl.
      destruct (WeakReference_live _ _ _ _ Hh Hc) as [Hb Hg].
      exists a, o. repeat (split; [done|]).
      unfold checkButton_onClick, bind. rewrite Hb, Hg.
      unfold Component_getName, deref, bind, ret. rewrite Ho. reflexivity.
    + right. destruct (WeakReference_cleared _ _ _ Hh Hc) as [Hb Hg].
      split; [done|]. unfold checkButton_onClick, bind. rewrite Hb. reflexivity.
  - right. unfold checkButton_onClick, WeakReference_bool, WeakReference_get, bind, ret.
    rewrite Hh. done.
Qed.

(** The object at address 5 has destroyed itself and another object, named
    ["other"], has since been constructed at the same address: the check
    button, bound to the first, reports the deletion. *)
Lemma checkButton_never_faults_example :
  let st := state_after 42 [OpNewSelfDestructing 5; OpTimer 0;
                            OpNewSelfDestructing 5;
                            OpSetName (Some 5%positive) "other"] in
  let w := mkWeak (Some 1%positive) in
  checkButton_onClick w st = Ok tt (emit (Dbg "Object has been deleted") st) /\
  ((exists a o,
       WeakReference_get w st = Ok (Some a) st /\
       heap st !! a = Some o /\ masterReference o = holder w /\
       checkButton_onClick w st =
       Ok tt (emit (Dbg ("Name: " ++ componentName o)) st))
   \/
   (WeakReference_get w st = Ok nullptr st /\
    checkButton_onClick w st = Ok tt (emit (Dbg "Object has been deleted") st))).
Proof.
  intros st w. split; [vm_compute; reflexivity|].
  apply (checkButton_never_faults st w).
  - exists 42, [OpNewSelfDestructing 5; OpTimer 0; OpNewSelfDestructing 5;
                OpSetName (Some 5%positive) "other"].
    vm_compute. reflexivity.
  - vm_compute. eexists. reflexivity.
Defined.

(** *** The timer's lambda, called again *)

Lemma selfDestruct_dead st w st' :
  reachable st -> handle_wf st w ->
  selfDestruct w st = Ok tt st' ->
  WeakReference_bool w st' = Ok false st'.
Proof.
  intros Hr Hw H. pose proof (reachable_wf _ Hr) as Hwf.
  unfold handle_wf in Hw. unfold selfDestruct in H.
  destruct (holder w) as [c|] eqn:Hh.
  - destruct Hw as [[a|] Hc].
    + pose proof (proj1 (wf_cells _ Hwf c a) Hc) as Hl.
      unfold live_instance in Hl.
      destruct (heap st !! a) as [o|] eqn:Ho; [|done]. simpl in Hl.
      destruct (WeakReference_live _ _ _ _ Hh Hc) as [Hb Hg].
      unfold bind in H. rewrite Hb in H. simpl in H. unfold bind in H.
      rewrite Hg in H. unfold delete_, deref, bind in H. rewrite Ho in H.
      unfold Master_clear in H. rewrite Hl in H.
      unfold SharedPointer_clearPointer in H. rewrite Hc in H.
      injection H as <-.
      apply (WeakReference_cleared _ w c Hh). simpl. apply lookup_insert_eq.
    + destruct (WeakReference_cleared _ _ _ Hh Hc) as [Hb Hg].
      unfold bind in H. rewrite Hb in H. injection H as <-.
      by apply (WeakReference_cleared _ w c Hh).
  - unfold WeakReference_bool, WeakReference_get, bind, ret in *. rewrite Hh in *.
    simpl in H. injection H as <-. done.
Qed.

(** After the lambda has run once, from a reachable state, the weak
    reference it captured is dead; so if it were called a second time, it
    would run without a fault, delete nothing and only write its line
    again: the guard makes the callback safe to repeat. *)
Theorem selfDestruct_twice :
  forall st w st1,
    reachable st -> handle_wf st w ->
    selfDestruct w st = Ok tt st1 ->
    WeakReference_bool w st1 = Ok false st1 /\
    selfDestruct w st1 = Ok tt (emit (Dbg "Deleted object") st1) /\
    destructions (emit (Dbg "Deleted object") st1) = destructions st1.
Proof.
  intros st w st1 Hr Hw H.
  pose proof (selfDestruct_dead _ _ _ Hr Hw H) as Hb.
  split; [done|]. split.
  - unfold selfDestruct, bind. rewrite Hb. reflexivity.
  - unfold destructions. simpl. rewrite List.filter_app. simpl. apply app_nil_r.
Qed.

(** The lambda is called on the object at address 5, and then once more. *)
Lemma selfDestruct_twice_example :
  let st := state_after 42 [OpNewSelfDestructing 5] in
  let w := mkWeak (Some 1%positive) in
  let st1 := match selfDestruct w st with Ok _ x => x | _ => st end in
  trace st1 = [Cleared 1; Freed 5; Dbg "Deleted object"] /\
  WeakReference_bool w st1 = Ok false st1 /\
  selfDestruct w st1 = Ok tt (emit (Dbg "Deleted object") st1) /\
  destructions (emit (Dbg "Deleted object") st1) = destructions st1.
Proof.
  intros st w st1. split; [vm_compute; reflexivity|].
  apply (selfDestruct_twice st w st1).
  - exists 42, [OpNewSelfDestructing 5]. vm_compute. reflexivity.
  - vm_compute. eexists. reflexivity.
  - vm_compute. reflexivity.
Defined.

(** *** What weak references report changes only through a destruction *)

Lemma WeakReferenceExample_Ok a st st' :
  WeakReferenceExample a st = Ok tt st' ->
  heap st !! a = None /\
  heap st' = heap st /\
  cells st' = <[fresh (dom (cells st)) := nullptr]> (cells st) /\
  timers st' = timers st.
Proof.
  intros H. destruct (heap st !! a) as [o|] eqn:Ha.
  - unfold WeakReferenceExample, allocate, bind in H. rewrite Ha in H. done.
  - split; [done|]. revert H.
    unfold WeakReferenceExample, printSomething. library. simpl.
    rewrite Ha. repeat (progress (rewrite ?lookup_insert_eq; simpl)).
    intros [= <-]. simpl.
    rewrite !insert_insert_eq, delete_insert_eq. split; [|done].
    by apply delete_id.
Qed.

Lemma step_quiet o st st' c p :
  quiet o = true -> step o st = Ok tt st' ->
  cells st !! c = Some p -> cells st' !! c = Some p.
Proof.
  intros Hq H Hc.
  assert (Hf : fresh (dom (cells st)) <> c).
  { intros <-. by rewrite fresh_cell_unused in Hc. }
  destruct o; try discriminate Hq; simpl in H.
  7: { apply WeakReferenceExample_Ok in H as (_ & _ & -> & _).
       by rewrite lookup_insert_ne. }
  all: program; run; simpl; rewrite ?lookup_insert_ne by done; done.
Qed.

Lemma exec_quiet ops st st' c p :
  forallb quiet ops = true -> exec ops st = Ok tt st' ->
  cells st !! c = Some p -> cells st' !! c = Some p.
Proof.
  revert st. induction ops as [|o ops IH]; intros st Hq H Hc; simpl in *.
  - by injection H as <-.
  - apply andb_prop in Hq as [Hq Hqs].
    apply bind_Ok in H as ([] & st1 & H1 & H).
    eapply IH; [done|done|]. by eapply step_quiet.
Qed.

(** Through a run in which no timer callback runs and nothing is deleted
    from outside (objects are constructed, names set, references bound,
    buttons clicked, [WeakReferenceExample] run), every weak reference that
    existed before resolves to the same pointer as before: only a
    destruction changes what a weak reference reports. *)
Theorem quiet_run_keeps_references :
  forall ops st st' w p,
    forallb quiet ops = true ->
    exec ops st = Ok tt st' ->
    WeakReference_get w st = Ok p st ->
    WeakReference_get w st' = Ok p st' /\
    WeakReference_bool w st' = Ok (bool_decide (p <> nullptr)) st'.
Proof.
  intros ops st st' w p Hq Hx Hg.
  assert (Hg' : WeakReference_get w st' = Ok p st').
  { unfold WeakReference_get, SharedPointer_get, ret in *.
    destruct (holder w) as [c|]; [|by simplify_eq].
    destruct (cells st !! c) as [o|] eqn:Hc; simplify_eq.
    by rewrite (exec_quiet _ _ _ _ _ Hq Hx Hc). }
  split; [done|]. unfold WeakReference_bool, bind. rewrite Hg'. done.
Qed.

Lemma quiet_run_keeps_references_example :
  let st := state_after 42 [OpNewSelfDestructing 5] in
  let ops := [OpNewSelfDestructing 6; OpSetName (Some 5%positive) "x";
              OpExample 7; OpCheckClick (mkWeak (Some 1%positive));
              OpBind (Some 6%positive)] in
  let st' := state_after 42 (OpNewSelfDestructing 5 :: ops) in
  let w := mkWeak (Some 1%positive) in
  WeakReference_get w st' = Ok (Some 5%positive) st' /\
  WeakReference_bool w st' = Ok (bool_decide (Some 5%positive <> nullptr)) st'.
Proof.
  intros st ops st' w.
  apply (quiet_run_keeps_references ops st st' w (Some 5%positive)).
  - reflexivity.
  - vm_compute. reflexivity.
  - vm_compute. reflexivity.
Defined.

(** *** Many self-destructing objects *)

Lemma new_SelfDestructingObject_state a st p st' :
  new_SelfDestructingObject a st = Ok p st' ->
  let c := fresh (dom (cells st)) in
  heap st !! a = None /\ p = Some a /\
  st' = mkWorld (<[a := mkObject "" (Some c)]> (heap st))
                (<[c := Some a]> (cells st))
                (timers st ++ [(drawn_delay (seed st), SelfDestruct (mkWeak (Some c)))])
                (trace st) (next_seed (seed st)).
Proof.
  intros H c. unfold new_SelfDestructingObject in H. run; simplify_map_eq.
  split; [done|]. split; [done|].
  unfold set_timers, set_cells, set_heap, set_seed. simpl.
  by rewrite insert_insert_eq.
Qed.

Lemma selfDestruct_live st w c a o :
  holder w = Some c -> cells st !! c = Some (Some a) ->
  heap st !! a = Some o -> masterReference o = Some c ->
  selfDestruct w st =
  Ok tt (emit (Dbg "Deleted object")
           (emit (Freed a)
              (set_heap (delete a (heap st))
                 (emit (Cleared c)
                    (set_cells (<[c := nullptr]> (cells st)) st))))).
Proof.
  intros Hh Hc Ho Hm.
  destruct (WeakReference_live _ _ _ _ Hh Hc) as [Hb Hg].
  unfold selfDestruct, bind. rewrite Hb. simpl. unfold bind. rewrite Hg.
  unfold delete_, deref, bind. rewrite Ho.
  unfold Master_clear. rewrite Hm. unfold SharedPointer_clearPointer.
  rewrite Hc. reflexivity.
Qed.

Lemma timerCallback_state i st st' d w c a :
  wf st -> timers st !! i = Some (d, SelfDestruct w) ->
  holder w = Some c -> cells st !! c = Some (Some a) ->
  timerCallback i st = Ok tt st' ->
  st' = mkWorld (delete a (heap st)) (<[c := nullptr]> (cells st))
                (delete i (timers st))
                (trace st ++ [Cleared c; Freed a; Dbg "Deleted object"])
                (seed st).
Proof.
  intros Hwf Hi Hh Hc H.
  pose proof (proj1 (wf_cells _ Hwf c a) Hc) as Hl. unfold live_instance in Hl.
  destruct (heap st !! a) as [o|] eqn:Ho; [|done]. simpl in Hl.
  unfold timerCallback, take_timer, bind in H. rewrite Hi in H. simpl in H.
  rewrite (selfDestruct_live _ w c a o) in H by done.
  injection H as <-. unfold emit, set_heap, set_cells, set_timers. simpl.
  by rewrite <- !app_assoc.
Qed.

Lemma click_state o st st' :
  match o with OpCheckClick _ | OpCrashClick _ => True | _ => False end ->
  step o st = Ok tt st' ->
  heap st' = heap st /\ cells st' = cells st /\ timers st' = timers st /\
  List.filter is_release (trace st') = List.filter is_release (trace st).
Proof.
  intros Ho H. destruct o; try done; program; run; simpl;
    rewrite ?List.filter_app; simpl; rewrite ?app_nil_r; done.
Qed.

Lemma managed_same st st' :
  heap st' = heap st -> cells st' = cells st -> timers st' = timers st ->
  managed st -> managed st'.
Proof.
  intros Eh Ec Et [Ht Hn Hh Hs]. split; rewrite ?Eh, ?Ec, ?Et; done.
Qed.

Lemma managed_initial s : managed (initial s).
Proof.
  split; simpl.
  - intros t H. by apply not_elem_of_nil in H.
  - constructor.
  - intros a o H. by rewrite lookup_empty in H.
  - apply map_size_empty.
Qed.

Lemma managed_new a st p st' :
  managed st -> new_SelfDestructingObject a st = Ok p st' -> managed st'.
Proof.
  intros [Ht Hn Hh Hs] H.
  apply new_SelfDestructingObject_state in H as (Ha & -> & ->).
  assert (Hf : forall c' q, cells st !! c' = Some q -> c' <> fresh (dom (cells st))).
  { intros c' q Hq ->. by rewrite fresh_cell_unused in Hq. }
  set (c := fresh (dom (cells st))) in *.
  split; simpl.
  - intros t Hin. apply elem_of_app in Hin as [Hin|Hin].
    + destruct (Ht t Hin) as (c' & a' & Hc' & Hl). exists c', a'. split; [done|].
      rewrite lookup_insert_ne; [done|]. intros E. by apply (Hf _ _ Hl).
    + apply list_elem_of_singleton in Hin as ->. exists c, a. split; [done|].
      apply lookup_insert_eq.
  - rewrite fmap_app. apply NoDup_app. split; [done|]. split.
    + intros x Hx Hx'. apply list_elem_of_singleton in Hx'. simpl in Hx'. subst x.
      apply list_elem_of_fmap in Hx as (t & Ht' & Hin).
      destruct (Ht t Hin) as (c' & a' & Hc' & Hl).
      apply (Hf _ _ Hl). unfold timer_cell in *. simpl in *. congruence.
    + apply NoDup_singleton.
  - intros a' o Ho. destruct (decide (a' = a)) as [->|Hne].
    + rewrite lookup_insert_eq in Ho. injection Ho as <-.
      exists c, (drawn_delay (seed st), SelfDestruct (mkWeak (Some c))).
      split; [done|]. split; [|reflexivity].
      apply elem_of_app. right. apply list_elem_of_singleton. reflexivity.
    + rewrite lookup_insert_ne in Ho by done.
      destruct (Hh a' o Ho) as (c' & t & Hm & Hin & Hc').
      exists c', t. split; [done|]. split; [|done]. apply elem_of_app. by left.
  - rewrite map_size_insert_None by done. rewrite length_app. simpl. lia.
Qed.

Lemma managed_timer i st st' :
  wf st -> managed st -> timerCallback i st = Ok tt st' ->
  managed st' /\
  exists c a, trace st' = (trace st ++ [Cleared c; Freed a; Dbg "Deleted object"])%list.
Proof.
  intros Hwf [Ht Hn Hh Hs] H.
  assert (exists d w, timers st !! i = Some (d, SelfDestruct w)) as (d & w & Hi).
  { unfold timerCallback, take_timer, bind in H.
    destruct (timers st !! i) as [[d [w]]|]; [eauto|done]. }
  destruct (Ht _ (list_elem_of_lookup_2 _ _ _ Hi)) as (c & a & Hc & Hl).
  simpl in Hc.
  rewrite (timerCallback_state _ _ _ _ _ _ _ Hwf Hi Hc Hl H).
  split; [|by eauto]. clear H.
  pose proof (proj1 (wf_cells _ Hwf c a) Hl) as Hlive. unfold live_instance in Hlive.
  destruct (heap st !! a) as [o|] eqn:Ho; [|done]. simpl in Hlive.
  assert (Hother : forall t, t ∈ delete i (timers st) -> timer_cell t <> Some c).
  { intros t Hin Htc.
    apply list_elem_of_lookup in Hin as [j Hj].
    rewrite list_lookup_delete in Hj.
    set (k := if decide (j < i)%nat then j else S j) in *.
    assert (k <> i) by (unfold k; case_decide; lia).
    assert (k = i); [|done].
    apply (NoDup_lookup _ k i (Some c) Hn).
    - rewrite list_lookup_fmap, Hj, <- Htc. reflexivity.
    - rewrite list_lookup_fmap, Hi, <- Hc. reflexivity. }
  split; simpl.
  - intros t Hin. pose proof (Hother t Hin) as Hne.
    destruct (Ht t (list_elem_of_delete_inv _ _ _ Hin)) as (c' & a' & Hc' & Hl').
    exists c', a'. split; [done|]. rewrite lookup_insert_ne; [done|]. congruence.
  - eapply sublist_NoDup; [exact Hn|]. apply fmap_sublist, sublist_delete.
  - intros a' o' Ho'. destruct (decide (a' = a)) as [->|Hne].
    + by rewrite lookup_delete_eq in Ho'.
    + rewrite lookup_delete_ne in Ho' by done.
      destruct (Hh a' o' Ho') as (c' & t & Hm & Hin & Hc').
      exists c', t. split; [done|]. split; [|done].
      assert (c' <> c).
      { intros ->. assert (cells st !! c = Some (Some a')) as E.
        { apply (wf_cells _ Hwf). unfold live_instance. by rewrite Ho'. }
        congruence. }
      apply list_elem_of_lookup in Hin as [j Hj].
      assert (j <> i) by (intros ->; rewrite Hi in Hj; injection Hj as <-; simpl in Hc'; congruence).
      apply list_elem_of_lookup.
      destruct (decide (j < i)%nat).
      * exists j. by rewrite list_lookup_delete_lt.
      * exists (pred j). rewrite list_lookup_delete_ge by lia.
        replace (S (pred j)) with j by lia. done.
  - rewrite map_size_delete, Ho. rewrite length_delete by eauto. lia.
Qed.

Lemma managed_setName p n st st' :
  managed st -> Component_setName p n st = Ok tt st' ->
  managed st' /\ trace st' = trace st.
Proof.
  intros [Ht Hn Hh Hs] H. run. rename select loc into a.
  rename select (heap _ !! a = Some _) into Ha.
  split; [|done]. split; simpl; try done.
  - intros a' o Ho. destruct (decide (a' = a)) as [->|Hne].
    + rewrite lookup_insert_eq in Ho. injection Ho as <-. simpl. by eapply Hh.
    + rewrite lookup_insert_ne in Ho by done. by eapply Hh.
  - rewrite map_size_insert_Some by eauto. done.
Qed.

Lemma managed_bind p st w st' :
  managed st -> WeakReference_of p st = Ok w st' -> st' = st.
Proof.
  intros [Ht Hn Hh Hs] H. run; try done.
  rename select (heap _ !! _ = Some _) into Ha.
  destruct (Hh _ _ Ha) as (c & t & Hm & _). congruence.
Qed.

Lemma step_managed o st st' :
  wf st -> managed st -> self_managed o = true -> step o st = Ok tt st' ->
  managed st' /\
  length (List.filter is_release (trace st')) =
  (length (List.filter is_release (trace st)) + (if is_timer o then 1 else 0))%nat.
Proof.
  intros Hwf Hm Ho H. destruct o; try discriminate Ho; simpl in H.
  - apply bind_Ok in H as (p & st1 & H & [= <-]).
    split; [by eapply managed_new|].
    apply new_SelfDestructingObject_state in H as (_ & _ & ->). simpl. lia.
  - apply managed_setName in H as [H ->]; [|done]. split; [done|]. simpl. lia.
  - apply bind_Ok in H as (w & st1 & H & [= <-]).
    apply managed_bind in H as ->; [|done]. split; [done|]. simpl. lia.
  - apply managed_timer in H as [H (c & a & ->)]; [|done|done]. split; [done|].
    rewrite List.filter_app, length_app. reflexivity.
  - apply (click_state (OpCheckClick w)) in H as (Eh & Ec & Et & ->); [|done].
    split; [by eapply managed_same|]. simpl. lia.
  - apply (click_state (OpCrashClick p)) in H as (Eh & Ec & Et & ->); [|done].
    split; [by eapply managed_same|]. simpl. lia.
Qed.

Lemma exec_managed ops st st' :
  wf st -> managed st -> forallb self_managed ops = true ->
  exec ops st = Ok tt st' ->
  managed st' /\
  length (List.filter is_release (trace st')) =
  (length (List.filter is_release (trace st)) + count is_timer ops)%nat.
Proof.
  revert st. induction ops as [|o ops IH]; intros st Hwf Hm Ho H; simpl in *.
  - injection H as <-. unfold count. simpl. split; [done|lia].
  - apply andb_prop in Ho as [Ho Hos].
    apply bind_Ok in H as ([] & st1 & H1 & H).
    destruct (sound_step o _ _ _ Hwf H1) as [Hwf1 _].
    destruct (step_managed _ _ _ Hwf Hm Ho H1) as [Hm1 Hr1].
    destruct (IH _ Hwf1 Hm1 Hos H) as [Hm' Hr'].
    split; [done|]. unfold count in *. simpl.
    destruct (is_timer o); simpl; lia.
Qed.

(** A program constructs any number of [SelfDestructingObject]s, at any
    free addresses, and leaves them to themselves: names are set,
    references bound, buttons clicked, and the timers fire in any order.
    Then at every point the live objects are exactly the objects the
    pending timers resolve to, and there are as many of the one as of the
    other; every pending callback will find its object alive; every
    callback that has run has released exactly one object; and once no
    timer is pending the free store is empty: nothing leaks and nothing is
    released twice. *)
Theorem self_managed_no_leak :
  forall s ops st,
    exec ops (initial s) = Ok tt st ->
    forallb self_managed ops = true ->
    (forall a, is_Some (heap st !! a) <->
               exists d w, (d, SelfDestruct w) ∈ timers st /\
                           WeakReference_get w st = Ok (Some a) st) /\
    size (heap st) = length (timers st) /\
    length (List.filter is_release (trace st)) = count is_timer ops /\
    (timers st = [] -> heap st = ∅).
Proof.
  intros s ops st Hx Ho.
  destruct (sound_exec ops _ _ _ (wf_initial s) Hx) as [Hwf _].
  destruct (exec_managed _ _ _ (wf_initial s) (managed_initial s) Ho Hx)
    as [[Ht Hn Hh Hs] Hr].
  split; [|split; [done|split; [done|]]].
  - intros a. split.
    + intros [o Ha]. destruct (Hh a o Ha) as (c & [d [w]] & Hm & Hin & Hc).
      exists d, w. split; [done|]. unfold timer_cell in Hc. simpl in Hc.
      apply (WeakReference_live st w c a Hc).
      apply (wf_cells _ Hwf). unfold live_instance. by rewrite Ha.
    + intros (d & w & Hin & Hg).
      destruct (Ht _ Hin) as (c & a' & Hc & Hl). unfold timer_cell in Hc. simpl in Hc.
      destruct (WeakReference_live st w c a' Hc Hl) as [_ Hg'].
      rewrite Hg in Hg'. injection Hg' as ->.
      apply (wf_cells _ Hwf) in Hl. unfold live_instance in Hl.
      destruct (heap st !! a'); [eauto|done].
  - intros E. rewrite E in Hs. simpl in Hs. by apply map_size_empty_inv.
Qed.

(** Three objects are constructed, one at an address used before; their
    timers fire in another order than they were started in. *)
Lemma self_managed_no_leak_example :
  let ops := [OpNewSelfDestructing 5; OpNewSelfDestructing 6; OpTimer 1;
              OpNewSelfDestructing 6; OpCheckClick (mkWeak (Some 2%positive));
              OpTimer 1; OpTimer 0] in
  let st := state_after 42 ops in
  (forall a, is_Some (heap st !! a) <->
             exists d w, (d, SelfDestruct w) ∈ timers st /\
                         WeakReference_get w st = Ok (Some a) st) /\
  size (heap st) = length (timers st) /\
  length (List.filter is_release (trace st)) = count is_timer ops /\
  (timers st = [] -> heap st = ∅).
Proof.
  intros ops st. apply (self_managed_no_leak 42 ops st).
  - vm_compute. reflexivity.
  - reflexivity.
Defined.

(** *** The application, event by event *)

Lemma step_replay s a fired tr e :
  let mc := mkMainComponent (Some a) (mkWeak (Some 1%positive)) in
  step (op_of_event mc e) (application_state s a fired tr) =
  match e, fired with
  | TimerFires, true => Infeasible
  | ClickCrash, true => UB
  | _, _ =>
      Ok tt (application_state s a (match e with TimerFires => true | _ => fired end)
               (tr ++ event_effects a fired e))
  end.
Proof.
  intros mc. destruct e, fired; simpl; program; library; simpl;
    repeat (progress (rewrite ?lookup_singleton_eq, ?lookup_empty; simpl));
    try reflexivity.
  unfold emit, set_heap, set_cells, set_timers. simpl.
  rewrite delete_singleton_eq, insert_singleton_eq, <- !app_assoc. reflexivity.
Qed.

Lemma exec_replay s a fired tr evs :
  let mc := mkMainComponent (Some a) (mkWeak (Some 1%positive)) in
  exec (map (op_of_event mc) evs) (application_state s a fired tr) =
  match replay a fired evs with
  | Writes t f => Ok tt (application_state s a f (tr ++ t))
  | Faults => UB
  | Impossible => Infeasible
  end.
Proof.
  intros mc. subst mc. revert fired tr.
  induction evs as [|e evs IH]; intros fired tr.
  - simpl. by rewrite app_nil_r.
  - cbn [map exec]. unfold bind at 1.
    pose proof (step_replay s a fired tr e) as Hs. cbv zeta in Hs. rewrite Hs.
    destruct e, fired; cbn -[application_state exec map]; try reflexivity;
      rewrite IH;
      match goal with |- context [replay ?x ?y ?z] => destruct (replay x y z) end;
      rewrite <- ?app_assoc; reflexivity.
Qed.

(** The application behaves as the two-state machine [replay]: for every
    seed, address and sequence of events, the run of [MainComponent]'s
    constructor followed by the events ends in the state the machine
    predicts, with exactly the lines and destructions it lists; it has
    undefined behaviour exactly when the machine faults, which is a click on
    the crash button after the timer has fired; and it is impossible exactly
    when the one-shot timer would fire a second time. *)
Theorem application_replay :
  forall s a evs,
    application a evs (initial s) =
    match replay a false evs with
    | Writes t f =>
        Ok (mkMainComponent (Some a) (mkWeak (Some 1%positive)))
           (application_state s a f t)
    | Faults => UB
    | Impossible => Infeasible
    end.
Proof.
  intros s a evs. unfold application, bind.
  rewrite MainComponent_new_Ok.
  change (constructed s a) with (application_state s a false []).
  rewrite exec_replay. destruct (replay a false evs); reflexivity.
Qed.

Lemma replay_no_crash a fired evs :
  ~ In ClickCrash evs -> replay a fired evs <> Faults.
Proof.
  revert fired. induction evs as [|e evs IH]; intros fired Hn; [done|].
  assert (He : e <> ClickCrash) by (intros ->; apply Hn; by left).
  assert (Hn' : ~ In ClickCrash evs) by (intros H; apply Hn; by right).
  destruct e, fired; simpl; try done;
    match goal with
    | |- context [replay ?x ?y ?z] =>
        pose proof (IH y Hn'); destruct (replay x y z); done
    end.
Qed.

(** Whatever the order of the events, a run of the application in which the
    crash button is not clicked never has undefined behaviour: the check
    button, which goes through the weak reference, is safe before and after
    the object has destroyed itself. *)
Theorem check_button_runs_never_fault :
  forall s a evs,
    ~ In ClickCrash evs ->
    application a evs (initial s) <> UB.
Proof.
  intros s a evs Hn. unfold application, bind.
  rewrite MainComponent_new_Ok.
  change (constructed s a) with (application_state s a false []).
  pose proof (exec_replay s a false [] evs) as Hx. cbv zeta in Hx. rewrite Hx.
  pose proof (replay_no_crash a false evs Hn).
  destruct (replay a false evs); done.
Qed.

Lemma check_button_runs_never_fault_example :
  application 5 [ClickCheck; TimerFires; ClickCheck; ClickCheck] (initial 42) <> UB.
Proof.
  apply (check_button_runs_never_fault 42 5).
  intros [H|[H|[H|[H|[]]]]]; discriminate H.
Defined.

(** *** The macro [MAX] *)


(** *** The layout of the two buttons *)

(** For a component of any size, [resized] gives both buttons the size 100
    by 25 at the same height, each centred in its half of the width.  The
    buttons overlap exactly when the component is narrower than 200; from
    200 on the check button ends where the left half ends and the crash
    button starts there at the earliest.  Both lie inside the component
    exactly when it is at least 199 wide and 25 high. *)
Theorem resized_layout :
  forall width height,
    0 <= width -> 0 <= height ->
    let check := fst (resized width height) in
    let crash := snd (resized width height) in
    rect_w check = 100 /\ rect_h check = 25 /\
    rect_w crash = 100 /\ rect_h crash = 25 /\
    rect_y check = rect_y crash /\
    (* centred in the left and in the right half, up to rounding *)
    - 1 <= 2 * rect_x check + 100 - Z.quot width 2 <= 1 /\
    - 1 <= 2 * rect_x crash + 100 - (Z.quot width 2 + width) <= 1 /\
    (overlap check crash <-> width < 200) /\
    (200 <= width ->
     rect_x check + rect_w check <= Z.quot width 2 <= rect_x crash) /\
    (inside check width height /\ inside crash width height <->
     199 <= width /\ 25 <= height).
Proof.
  intros width height Hw Hh check crash.
  unfold check, crash, resized, removeFromLeft, withSizeKeepingCentre,
    getLocalBounds, Rectangle_of_size, overlap, inside, jmin. simpl.
  destruct (Z.ltb_spec width (Z.quot width 2)); simpl;
    Z.to_euclidean_division_equations; lia.
Qed.

(** The size [MainComponent]'s constructor sets: 400 by 400. *)
Lemma resized_layout_example :
  let check := fst (resized 400 400) in
  let crash := snd (resized 400 400) in
  check = mkRectangle 50 187 100 25 /\
  crash = mkRectangle 250 187 100 25 /\
  rect_w check = 100 /\ rect_h check = 25 /\
  rect_w crash = 100 /\ rect_h crash = 25 /\
  rect_y check = rect_y crash /\
  - 1 <= 2 * rect_x check + 100 - Z.quot 400 2 <= 1 /\
  - 1 <= 2 * rect_x crash + 100 - (Z.quot 400 2 + 400) <= 1 /\
  (overlap check crash <-> 400 < 200) /\
  (200 <= 400 ->
   rect_x check + rect_w check <= Z.quot 400 2 <= rect_x crash) /\
  (inside check 400 400 /\ inside crash 400 400 <->
   199 <= 400 /\ 25 <= 400).
Proof.
  intros check crash. split; [reflexivity|]. split; [reflexivity|].
  apply (resized_layout 400 400); lia.
Defined.
